(** * The [sdc] command-line class of node-triton ([lib/cli.js])

    A shallow embedding of the three sub-commands of the CLI class
    ([do_profile], [do_dcs], [do_machines]) together with the properties
    the specification states about them.

    JavaScript objects live in a store indexed by object identity, so that
    a write such as [dcMachines[i].dc = dc] is a write to a shared object
    and not the creation of a new value.  What a command does to the outside
    world (printing, calling [callback], calling into [cmdln] or into the
    [SDC] object) is recorded, in program order, in a trace of actions. *)

From stdpp Require Import gmap strings list fin_maps.

Set Warnings "-clear-no-such-hyp".

Open Scope string_scope.
Open Scope list_scope.
Open Scope nat_scope.

(** ** Values, objects and the store *)

Definition DatacenterId := string.

(** Object identity. *)
Definition loc := nat.

(** The values a property of a profile, of a machine record or of an error
    object holds.  Arrays occur only as [profile.dcs], an array of DC names,
    and are never updated in place by [cli.js]. *)
Inductive val :=
  | VNull
  | VBool (b : bool)
  | VNum (n : Z)
  | VStr (s : string)
  | VArr (l : list string).

#[global] Instance val_eq_dec : EqDecision val.
Proof. solve_decision. Defined.

(** An object is its own properties; a property that is absent reads as
    [undefined]. *)
Abbreviation obj := (gmap string val).
Abbreviation store := (gmap loc obj).

Definition get_obj (h : store) (l : loc) : obj := default ∅ (h !! l).

(** [o.k] *)
Definition get_prop (h : store) (l : loc) (k : string) : option val :=
  get_obj h l !! k.

(** [o.k = v] *)
Definition set_prop (l : loc) (k : string) (v : val) (h : store) : store :=
  <[l := <[k := v]> (get_obj h l)]> h.

(** JavaScript truthiness of [o.k]. *)
Definition truthy (v : option val) : bool :=
  match v with
  | None | Some VNull => false
  | Some (VBool b) => b
  | Some (VNum n) => negb (n =? 0)%Z
  | Some (VStr s) => negb (String.eqb s "")
  | Some (VArr _) => true
  end.

(** [Array.prototype.join] on an array of strings. *)
Definition join (sep : string) (l : list string) : string := String.concat sep l.

(** ** Errors and actions *)

(** What [callback] may receive as its error argument. *)
Inductive error :=
  | Error (message : string)      (* new Error(message) *)
  | ErrObj (dcErr : loc)          (* an error object delivered by 'dcError' *)
  | MultiError (errs : list loc). (* new errors.MultiError(errs) *)

(** The options object of [common.tabulate]. *)
Record tabulate_opts := {
  columns : string;
  sort : string;
  validFields : string
}.

Inductive action :=
  | do_help (args : list string)  (* this.do_help('help', {}, args, callback) *)
  | read_sdc                      (* an evaluation of [this.sdc] *)
  | listMachines                  (* this.sdc.listMachines() *)
  | print_json (items : list obj) (* p(JSON.stringify(items, null, 4)) *)
  | tabulate (items : list obj) (o : tabulate_opts)
  | callback (err : option error)
  | throw_TypeError.

(** ** The event stream of [sdc.listMachines()] *)

Inductive outcome :=
  | Data (dc : DatacenterId) (dcMachines : list loc)   (* 'data' *)
  | DcError (dc : DatacenterId) (dcErr : loc).          (* 'dcError' *)

Inductive event :=
  | Outcome (o : outcome)
  | End.                                                 (* 'end' *)

(** ** The state of the program *)

(** The part of the [SDC] object that [cli.js] reads. *)
Record SDC := {
  profiles : list loc;                  (* sdc.profiles *)
  profile_name : string;                (* sdc.profile.name *)
  config_dcs : list (string * string)   (* sdc.config.dcs, in key order *)
}.

Record state := {
  opts_profile : option string;   (* opts.profile, as given to [init] *)
  _sdc : option SDC;              (* self._sdc *)
  heap : store;
  out : list action
}.

Definition emit_action (a : action) (s : state) : state :=
  {| opts_profile := opts_profile s; _sdc := _sdc s;
     heap := heap s; out := out s ++ [a] |}.

Definition with_heap (h : store) (s : state) : state :=
  {| opts_profile := opts_profile s; _sdc := _sdc s;
     heap := h; out := out s |}.

(** The command options [cli.js] looks at. *)
Record options := {
  help : bool;
  json : bool
}.

(** ** The consumer of [do_machines] *)

(** The two arrays the handlers close over, and the rest of the state. *)
Record run := {
  machines : list loc;
  errs : list loc;
  st : state
}.

(** One turn of the loop in the 'data' handler:
    [dcMachines[i].dc = dc; machines.push(dcMachines[i])]. *)
Definition tag_machine (dc : DatacenterId) (m : loc) (r : run) : run :=
  {| machines := machines r ++ [m];
     errs := errs r;
     st := with_heap (set_prop m "dc" (VStr dc) (heap (st r))) (st r) |}.

Fixpoint on_data (dc : DatacenterId) (dcMachines : list loc) (r : run) : run :=
  match dcMachines with
  | [] => r
  | m :: rest => on_data dc rest (tag_machine dc m r)
  end.

(** The 'dcError' handler: [dcErr.dc = dc; errs.push(dcErr)]. *)
Definition on_dcError (dc : DatacenterId) (dcErr : loc) (r : run) : run :=
  {| machines := machines r;
     errs := errs r ++ [dcErr];
     st := with_heap (set_prop dcErr "dc" (VStr dc) (heap (st r))) (st r) |}.

Definition machines_table : tabulate_opts :=
  {| columns := "dc,id,name,state,created";
     sort := "created";
     validFields := "dc,id,name,type,state,image,package,memory,"
                    +:+ "disk,created,updated,compute_node,primaryIp" |}.

(** What is printed: the objects as they are when they are printed. *)
Definition snapshot (h : store) (ls : list loc) : list obj := get_obj h <$> ls.

(** [if (opts.json) p(JSON.stringify(items, null, 4)) else common.tabulate(items, t)] *)
Definition rendered (o : options) (t : tabulate_opts) (ls : list loc) (h : store)
    : action :=
  if json o then print_json (snapshot h ls) else tabulate (snapshot h ls) t.

Definition render (o : options) (t : tabulate_opts) (ls : list loc) (s : state)
    : state :=
  emit_action (rendered o t ls (heap s)) s.

(** [var err; if (errs.length === 1) ... else if (errs.length > 1) ...] *)
Definition end_error (errs : list loc) : option error :=
  match errs with
  | [] => None
  | [e] => Some (ErrObj e)
  | _ => Some (MultiError errs)
  end.

(** The 'end' handler. *)
Definition on_end (o : options) (r : run) : run :=
  {| machines := machines r;
     errs := errs r;
     st := emit_action (callback (end_error (errs r)))
             (render o machines_table (machines r) (st r)) |}.

Definition on_outcome (oc : outcome) (r : run) : run :=
  match oc with
  | Data dc dcMachines => on_data dc dcMachines r
  | DcError dc dcErr => on_dcError dc dcErr r
  end.

Definition dispatch (o : options) (r : run) (ev : event) : run :=
  match ev with
  | Outcome oc => on_outcome oc r
  | End => on_end o r
  end.

(** The handlers run once per event, in the order of emission. *)
Definition deliver (o : options) (evs : list event) (r : run) : run :=
  foldl (dispatch o) r evs.

(** A stream that completes: its outcomes, then 'end'. *)
Definition completed (os : list outcome) : list event := (Outcome <$> os) ++ [End].

(** ** Copying profiles *)

(** Modelled from the spec: [common.deepObjCopy] lives in [lib/common.js],
    which this development does not embed.  It is described as making a
    deep copy: every object of the array is copied, property by property,
    into an object of its own that did not exist before. *)
Fixpoint deepObjCopy (ls : list loc) (h : store) : list loc * store :=
  match ls with
  | [] => ([], h)
  | l :: rest =>
      let l' := fresh (dom h) in
      let '(rest', h') := deepObjCopy rest (<[l' := get_obj h l]> h) in
      (l' :: rest', h')
  end.

(** One turn of the loop of [do_profile].  The flag is [false] when the
    turn ends in a [TypeError]: [profs[i].dcs] is truthy and has no [join]. *)
Definition annotate_profile (currProfileName : string) (p : loc) (h : store)
    : store * bool :=
  let curr :=
    if bool_decide (get_prop h p "name" = Some (VStr currProfileName))
    then "*" else " " in
  let h1 := set_prop p "curr" (VStr curr) h in
  let dcs := get_prop h1 p "dcs" in
  if truthy dcs then
    match dcs with
    | Some (VArr l) => (set_prop p "dcs" (VStr (join "," l)) h1, true)
    | _ => (h1, false)
    end
  else (set_prop p "dcs" (VStr (join "," ["all"])) h1, true).

Fixpoint annotate (currProfileName : string) (profs : list loc) (h : store)
    : store * bool :=
  match profs with
  | [] => (h, true)
  | p :: rest =>
      let '(h', ok) := annotate_profile currProfileName p h in
      if ok then annotate currProfileName rest h' else (h', false)
  end.

Definition profiles_table : tabulate_opts :=
  {| columns := "curr,name,dcs,user,keyId";
     sort := "name,user";
     validFields := "curr,name,dcs,user,keyId" |}.

Definition dcs_table : tabulate_opts :=
  {| columns := "name,url"; sort := "name"; validFields := "name,url" |}.

(** [{name: n, url: dcs[n]}] *)
Definition dc_entry (kv : string * string) : obj :=
  <["name" := VStr kv.1]> (<["url" := VStr kv.2]> ∅).

(** ** The commands *)

Section Commands.

(** [new SDC({log: log, profile: opts.profile})] lives in [lib/sdc.js]; it is
    taken as given.  It may create objects, hence the store. *)
Variable new_SDC : option string → store → SDC * store.

(** The getter [init] defines for [this.sdc]. *)
Definition sdc (s : state) : SDC * state :=
  match _sdc s with
  | Some d => (d, emit_action read_sdc s)
  | None =>
      let '(d, h) := new_SDC (opts_profile s) (heap s) in
      (d, emit_action read_sdc
            {| opts_profile := opts_profile s; _sdc := Some d;
               heap := h; out := out s |})
  end.

Definition too_many_args (args : list string) : error :=
  Error ("too many args: " +:+ join "," args).

(** [do_machines], run against the events [evs] that the emitter returned by
    [listMachines()] goes on to emit. *)
Definition do_machines (subcmd : string) (o : options) (args : list string)
    (evs : list event) (s : state) : run :=
  if help o then
    {| machines := []; errs := [];
       st := emit_action (do_help [subcmd]) s |}
  else if bool_decide (1 < length args) then
    {| machines := []; errs := [];
       st := emit_action (callback (Some (too_many_args args))) s |}
  else
    let '(_, s1) := sdc s in
    deliver o evs
      {| machines := []; errs := []; st := emit_action listMachines s1 |}.

(** [do_profile] *)
Definition do_profile (subcmd : string) (o : options) (args : list string)
    (s : state) : state :=
  if help o then emit_action (do_help [subcmd]) s
  else if bool_decide (1 < length args) then
    emit_action (callback (Some (too_many_args args))) s
  else
    let '(d1, s1) := sdc s in
    let '(profs, h1) := deepObjCopy (profiles d1) (heap s1) in
    let '(d2, s2) := sdc (with_heap h1 s1) in
    let currProfileName := profile_name d2 in
    let '(h2, ok) := annotate currProfileName profs (heap s2) in
    let s3 := with_heap h2 s2 in
    if ok then emit_action (callback None) (render o profiles_table profs s3)
    else emit_action throw_TypeError s3.

(** [do_dcs].  The objects of [dcsArray] are created for printing and are
    reachable from nowhere else; they are given as they are printed. *)
Definition do_dcs (subcmd : string) (o : options) (args : list string)
    (s : state) : state :=
  if help o then emit_action (do_help [subcmd]) s
  else if bool_decide (1 < length args) then
    emit_action (callback (Some (too_many_args args))) s
  else
    let '(d, s1) := sdc s in
    let dcsArray := dc_entry <$> config_dcs d in
    emit_action (callback None)
      (if json o then emit_action (print_json dcsArray) s1
       else emit_action (tabulate dcsArray dcs_table) s1).

End Commands.

(** ** What a sequence of outcomes delivers *)

(** The records of the 'data' events, in the order of delivery. *)
Definition records (os : list outcome) : list loc :=
  os ≫= λ oc, match oc with Data _ ms => ms | DcError _ _ => [] end.

(** The error objects of the 'dcError' events, in the order of delivery. *)
Definition failures (os : list outcome) : list loc :=
  os ≫= λ oc, match oc with Data _ _ => [] | DcError _ e => [e] end.

(** Every object of the stream with the DC of the event that carries it. *)
Definition deliveries_of (oc : outcome) : list (loc * DatacenterId) :=
  match oc with
  | Data dc ms => (λ m, (m, dc)) <$> ms
  | DcError dc e => [(e, dc)]
  end.

Definition deliveries (os : list outcome) : list (loc * DatacenterId) :=
  os ≫= deliveries_of.

Definition tag (h : store) (d : loc * DatacenterId) : store :=
  set_prop d.1 "dc" (VStr d.2) h.

(** The DC of the last event that carries [l], if there is one. *)
Definition last_dc (l : loc) (ds : list (loc * DatacenterId)) : option DatacenterId :=
  snd <$> last (filter (λ d, d.1 = l) ds).

Definition accumulate (os : list outcome) (r : run) : run :=
  foldl (λ r oc, on_outcome oc r) r os.

(** Where the handlers of [do_machines] start from. *)
Definition start (s : state) : run :=
  {| machines := []; errs := []; st := emit_action listMachines s |}.

(** ** The fan-out behind [sdc.listMachines()] *)

(** Modelled from the spec: the result of one call of the per-DC client,
    which lives with [SDC.prototype.listMachines] in [lib/sdc.js]: a
    complete list of records, an error, or a fault thrown by the unit of
    work. *)
Inductive call_result :=
  | Records (recs : list loc)
  | Failed (err : loc)
  | Thrown (fault : loc).

(** Modelled from the spec: the state of a fan-out of
    [SDC.prototype.listMachines] ([lib/sdc.js]): the units of work that have
    not completed yet, the shared counter of outstanding units, and the
    events emitted so far. *)
Record fanout := {
  pending : list DatacenterId;
  outstanding : nat;
  emitted : list event
}.

Section FanOut.

Context {Query : Type}.
Variable call : DatacenterId → Query → call_result.
Variable query : Query.

(** Modelled from the spec: the event a unit of work of
    [SDC.prototype.listMachines] ([lib/sdc.js]) emits: a record batch on
    success, a failure on an error, and a failure too when the unit throws. *)
Definition outcome_of (dc : DatacenterId) : outcome :=
  match call dc query with
  | Records recs => Data dc recs
  | Failed err => DcError dc err
  | Thrown fault => DcError dc fault
  end.

(** Modelled from the spec: [SDC.prototype.listMachines] ([lib/sdc.js])
    launches one unit of work per DC; on an empty set it is done at once. *)
Definition launch (dcs : list DatacenterId) : fanout :=
  {| pending := dcs;
     outstanding := length dcs;
     emitted := match dcs with [] => [End] | _ => [] end |}.

(** Modelled from the spec: the [i]-th pending unit of
    [SDC.prototype.listMachines] ([lib/sdc.js]) completes: it emits its
    outcome and decrements the counter; the unit that brings the counter to
    zero emits 'end'. *)
Definition complete (i : nat) (f : fanout) : option fanout :=
  dc ← pending f !! i;
  let n := outstanding f - 1 in
  Some {| pending := delete i (pending f);
          outstanding := n;
          emitted := emitted f ++ Outcome (outcome_of dc)
                       :: (if decide (n = 0) then [End] else []) |}.

(** Units complete in any order. *)
Definition step (f f' : fanout) : Prop := ∃ i, complete i f = Some f'.

(** A schedule names, turn by turn, which pending unit completes next. *)
Fixpoint run_schedule (sched : list nat) (f : fanout) : option fanout :=
  match sched with
  | [] => Some f
  | i :: rest => f' ← complete i f; run_schedule rest f'
  end.

End FanOut.

Definition outcome_dc (oc : outcome) : DatacenterId :=
  match oc with Data dc _ | DcError dc _ => dc end.

(** What holds of a fan-out over [dcs] at every moment: the counter counts
    the pending units; the outcomes emitted and the outcomes still to come
    are, together, one per DC; and 'end' has been emitted exactly when no
    unit is pending. *)
Definition fan_inv {Query : Type} (call : DatacenterId → Query → call_result)
    (query : Query) (dcs : list DatacenterId) (f : fanout) : Prop :=
  outstanding f = length (pending f)
  ∧ ∃ os,
      emitted f = (Outcome <$> os) ++ (if decide (pending f = []) then [End] else [])
      ∧ (outcome_of call query <$> pending f) ++ os
          ≡ₚ outcome_of call query <$> dcs.

(** ** Vocabulary of the statements *)

(** The object [l] carries the tag [dc]. *)
Definition tagged_with (h : store) (l : loc) (dc : DatacenterId) : Prop :=
  get_prop h l "dc" = Some (VStr dc).

Definition is_data (oc : outcome) : bool :=
  match oc with Data _ _ => true | DcError _ _ => false end.

(** [profs[i].dcs] is absent (or falsy), or it is an array: [join] applies. *)
Definition joinable (ob : obj) : bool :=
  match ob !! "dcs" with
  | Some (VArr _) => true
  | v => negb (truthy v)
  end.

(** A profile as [do_profile] prints it: marked as current or not, and with
    its DCs joined into one string, ['all'] when it names none. *)
Definition annotated (currProfileName : string) (ob : obj) : obj :=
  <["dcs" := VStr match ob !! "dcs" with
                  | Some (VArr l) => join "," l
                  | _ => "all"
                  end]>
    (<["curr" := VStr (if bool_decide (ob !! "name" = Some (VStr currProfileName))
                       then "*" else " ")]> ob).

(** Modelled from the spec: the streams [sdc.listMachines()] emits; it
    lives in [lib/sdc.js].  The list of a DC and the error of a DC come
    from that DC's own call, so that no object is delivered for two
    different DCs. *)
Definition one_dc_per_object (os : list outcome) : Prop :=
  ∀ l dc dc', (l, dc) ∈ deliveries os → (l, dc') ∈ deliveries os → dc = dc'.

(** The items shown are the records [ms], one item per record and in the
    same order: an item has every property its record has in [h0], except
    that its [dc] names a DC for which [ds] delivers the record. *)
Definition shows_records (items : list obj) (ms : list loc) (h0 : store)
    (ds : list (loc * DatacenterId)) : Prop :=
  length items = length ms
  ∧ ∀ i m, ms !! i = Some m →
      ∃ item dc, items !! i = Some item
        ∧ item !! "dc" = Some (VStr dc) ∧ (m, dc) ∈ ds
        ∧ ∀ k, k ≠ "dc" → item !! k = get_prop h0 m k.

(** The error that stands for the failures [fs]: none for no failure, the
    error object itself for one, a [MultiError] of all of them for more. *)
Definition surfaces (err : option error) (fs : list loc) : Prop :=
  (fs = [] → err = None)
  ∧ (∀ e, fs = [e] → err = Some (ErrObj e))
  ∧ (2 ≤ length fs → err = Some (MultiError fs)).

(** ** Sample runs *)

(** An [SDC] with no profile and no datacenter, that creates no object. *)
Definition no_config (profile : option string) (h : store) : SDC * store :=
  ({| profiles := []; profile_name := "env"; config_dcs := [] |}, h).

Definition fresh_state : state :=
  {| opts_profile := None; _sdc := None; heap := ∅; out := [] |}.

Definition plain : options := {| help := false; json := false |}.
Definition as_json : options := {| help := false; json := true |}.
Definition with_help : options := {| help := true; json := false |}.

(** Two machine records and three error objects. *)
Definition sample_store : store :=
  <[1 := <["id" := VStr "e91897cf"]> ∅]>
    (<[2 := <["id" := VStr "0c5d2a11"]> ∅]>
       (<[7 := <["message" := VStr "timeout"]> ∅]>
          (<[8 := <["message" := VStr "forbidden"]> ∅]>
             (<[9 := <["message" := VStr "bad response"]> ∅]> ∅)))).

Definition sample_state : state :=
  {| opts_profile := None; _sdc := None; heap := sample_store; out := [] |}.

(** One DC fails, the other delivers two records. *)
Definition partial_failure : list outcome :=
  [DcError "us-west-1" 7; Data "us-east-1" [1; 2]].

(** Three DCs, all failing. *)
Definition all_failing : list outcome :=
  [DcError "a" 7; DcError "b" 8; DcError "c" 9].

(** Two DCs, both delivering. *)
Definition all_delivering : list outcome :=
  [Data "us-west-1" [1]; Data "us-east-1" [2]].

(** The same object delivered by two DCs. *)
Definition shared_record : list outcome :=
  [Data "us-west-1" [1]; Data "us-east-1" [1]].

(** Two profiles, the first without DCs, and an [SDC] that reads them. *)
Definition profiles_store : store :=
  <[1 := <["name" := VStr "env"]> (<["user" := VStr "bob"]> ∅)]>
    (<[2 := <["name" := VStr "west"]>
              (<["dcs" := VArr ["us-west-1"; "us-sw-1"]]> ∅)]> ∅).

Definition two_profiles (profile : option string) (h : store) : SDC * store :=
  ({| profiles := [1; 2]; profile_name := "env";
      config_dcs := [("us-west-1", "https://us-west-1.api.joyentcloud.com")] |},
   h).

Definition profiles_state : state :=
  {| opts_profile := None; _sdc := None; heap := profiles_store; out := [] |}.

(** A per-DC client: one DC fails, one delivers, any other throws. *)
Definition sample_call (dc : DatacenterId) (q : string) : call_result :=
  if decide (dc = "us-west-1") then Failed 7
  else if decide (dc = "us-east-1") then Records [1; 2]
  else Thrown 9.

(** ** Streams in general *)

(** The outcomes of a stream, 'end' events left out. *)
Definition outcomes_of (evs : list event) : list outcome :=
  omap (λ ev, match ev with Outcome oc => Some oc | End => None end) evs.

Definition is_End (ev : event) : bool :=
  match ev with End => true | Outcome _ => false end.

Definition is_callback (a : action) : bool :=
  match a with callback _ => true | _ => false end.

Definition is_print (a : action) : bool :=
  match a with print_json _ | tabulate _ _ => true | _ => false end.

(** An action, whichever way its items are shown. *)
Definition as_listed (a : action) : action :=
  match a with tabulate items _ => print_json items | _ => a end.

(** The objects a stream delivers. *)
Definition delivered (evs : list event) : list loc :=
  (deliveries (outcomes_of evs)).*1.

(** What [do_profile] adds to the trace once it has read and copied the
    profiles [stored]: the annotated list and a call of [callback], or a
    [TypeError]. *)
Definition profile_report (o : options) (currProfileName : string)
    (stored : list obj) : list action :=
  if forallb joinable stored
  then [if json o then print_json (annotated currProfileName <$> stored)
        else tabulate (annotated currProfileName <$> stored) profiles_table;
        callback None]
  else [throw_TypeError].

(** ** [init] *)

(** The options [init] looks at. *)
Record init_options := {
  version : bool;
  verbose : bool;
  profile : option string
}.

(** What [init] may change outside the CLI object: [process.env.DEBUG] and
    the logger. *)
Record process := {
  DEBUG : option string;
  log_level : string;
  log_src : bool
}.

Inductive init_action :=
  | p_version (name ver : string)   (* p(this.name, pkg.version) *)
  | callback_false                  (* callback(false) *)
  | Cmdln_init.                     (* Cmdln.prototype.init.apply(this, arguments) *)

(** [CLI.prototype.init].  [name] and [ver] stand for [pkg.name] and
    [pkg.version] of [package.json].  The CLI object it sets up, with
    [this.opts] and the getter of [this.sdc], is the state the commands run
    in; with [opts.version] it returns before setting anything up. *)
Definition init (name ver : string) (opts : init_options) (pr : process)
    (h : store) : process * list init_action * option state :=
  if version opts then (pr, [p_version name ver; callback_false], None)
  else
    let pr' :=
      if verbose opts
      then {| DEBUG := Some "1"; log_level := "trace"; log_src := true |}
      else pr in
    (pr', [Cmdln_init],
     Some {| opts_profile := profile opts; _sdc := None; heap := h; out := [] |}).

(** The logger as [cli.js] creates it. *)
Definition initial_process : process :=
  {| DEBUG := None; log_level := "warn"; log_src := false |}.

(** ** Store lemmas *)

Lemma get_prop_set_prop_eq l k v h : get_prop (set_prop l k v h) l k = Some v.
Proof.
  unfold get_prop, set_prop, get_obj.
  rewrite lookup_insert_eq. simpl. apply lookup_insert_eq.
Qed.

Lemma get_obj_set_prop_ne l l' k v h :
  l ≠ l' → get_obj (set_prop l k v h) l' = get_obj h l'.
Proof.
  intros Hne. unfold set_prop, get_obj. by rewrite lookup_insert_ne.
Qed.

Lemma get_prop_set_prop_ne l l' k v h :
  l ≠ l' → get_prop (set_prop l k v h) l' k = get_prop h l' k.
Proof.
  intros Hne. unfold get_prop. by rewrite get_obj_set_prop_ne.
Qed.

Lemma get_prop_set_prop_other l k k' v h :
  k ≠ k' → get_prop (set_prop l k v h) l k' = get_prop h l k'.
Proof.
  intros Hne. unfold get_prop, set_prop, get_obj.
  rewrite lookup_insert_eq. simpl. by rewrite lookup_insert_ne.
Qed.

(** ** The handlers, event by event *)

Lemma on_data_machines dc ms r : machines (on_data dc ms r) = machines r ++ ms.
Proof.
  revert r. induction ms as [|m ms IH]; intros r; simpl.
  - by rewrite app_nil_r.
  - rewrite IH. simpl. by rewrite <- app_assoc.
Qed.

Lemma on_data_errs dc ms r : errs (on_data dc ms r) = errs r.
Proof. revert r. induction ms as [|m ms IH]; intros r; simpl; [done|]. by rewrite IH. Qed.

Lemma on_data_heap dc ms r :
  heap (st (on_data dc ms r)) = foldl tag (heap (st r)) ((λ m, (m, dc)) <$> ms).
Proof. revert r. induction ms as [|m ms IH]; intros r; simpl; [done|]. by rewrite IH. Qed.

Lemma on_data_out dc ms r : out (st (on_data dc ms r)) = out (st r).
Proof. revert r. induction ms as [|m ms IH]; intros r; simpl; [done|]. by rewrite IH. Qed.

Lemma on_data_sdc dc ms r : _sdc (st (on_data dc ms r)) = _sdc (st r).
Proof. revert r. induction ms as [|m ms IH]; intros r; simpl; [done|]. by rewrite IH. Qed.

Lemma accumulate_snoc os oc r :
  accumulate (os ++ [oc]) r = on_outcome oc (accumulate os r).
Proof. unfold accumulate. by rewrite foldl_app. Qed.

Lemma records_snoc os oc :
  records (os ++ [oc]) =
  records os ++ match oc with Data _ ms => ms | DcError _ _ => [] end.
Proof. unfold records. rewrite bind_app. simpl. by rewrite app_nil_r. Qed.

Lemma failures_snoc os oc :
  failures (os ++ [oc]) =
  failures os ++ match oc with Data _ _ => [] | DcError _ e => [e] end.
Proof. unfold failures. rewrite bind_app. simpl. by rewrite app_nil_r. Qed.

Lemma deliveries_snoc os oc :
  deliveries (os ++ [oc]) = deliveries os ++ deliveries_of oc.
Proof. unfold deliveries. rewrite bind_app. simpl. by rewrite app_nil_r. Qed.

Lemma accumulate_machines os r :
  machines (accumulate os r) = machines r ++ records os.
Proof.
  induction os as [|oc os IH] using rev_ind.
  - simpl. by rewrite app_nil_r.
  - rewrite accumulate_snoc, records_snoc, app_assoc, <- IH.
    destruct oc; simpl; [apply on_data_machines | by rewrite app_nil_r].
Qed.

Lemma accumulate_errs os r : errs (accumulate os r) = errs r ++ failures os.
Proof.
  induction os as [|oc os IH] using rev_ind.
  - simpl. by rewrite app_nil_r.
  - rewrite accumulate_snoc, failures_snoc, app_assoc, <- IH.
    destruct oc; simpl; [rewrite on_data_errs; by rewrite app_nil_r | done].
Qed.

Lemma accumulate_heap os r :
  heap (st (accumulate os r)) = foldl tag (heap (st r)) (deliveries os).
Proof.
  induction os as [|oc os IH] using rev_ind; [done|].
  rewrite accumulate_snoc, deliveries_snoc, foldl_app, <- IH.
  destruct oc; simpl; [apply on_data_heap | done].
Qed.

Lemma accumulate_out os r : out (st (accumulate os r)) = out (st r).
Proof.
  induction os as [|oc os IH] using rev_ind; [done|].
  rewrite accumulate_snoc. destruct oc; simpl; [by rewrite on_data_out | done].
Qed.

Lemma accumulate_sdc os r : _sdc (st (accumulate os r)) = _sdc (st r).
Proof.
  induction os as [|oc os IH] using rev_ind; [done|].
  rewrite accumulate_snoc. destruct oc; simpl; [by rewrite on_data_sdc | done].
Qed.

(** A completed stream: the outcomes are accumulated, then 'end' is handled. *)
Lemma deliver_completed o os r :
  deliver o (completed os) r = on_end o (accumulate os r).
Proof.
  unfold deliver, completed, accumulate. rewrite foldl_app. simpl. f_equal.
  revert r. induction os as [|oc os IH]; intros r; simpl; [done|]. apply IH.
Qed.

(** ** The tag an object ends up with *)

Lemma last_dc_snoc l d ds :
  last_dc l (ds ++ [d]) = if decide (d.1 = l) then Some d.2 else last_dc l ds.
Proof.
  unfold last_dc. rewrite filter_app. simpl.
  rewrite filter_cons, filter_nil. case_decide.
  - by rewrite last_snoc.
  - by rewrite app_nil_r.
Qed.

Lemma tagged_dc l ds h :
  get_prop (foldl tag h ds) l "dc" =
  match last_dc l ds with
  | Some dc => Some (VStr dc)
  | None => get_prop h l "dc"
  end.
Proof.
  induction ds as [|d ds IH] using rev_ind; [done|].
  rewrite foldl_app, last_dc_snoc. simpl. unfold tag at 1.
  case_decide as Hd.
  - subst l. apply get_prop_set_prop_eq.
  - rewrite get_prop_set_prop_ne by done. apply IH.
Qed.

Lemma tagged_lookup l ds (h : store) :
  foldl tag h ds !! l =
  match last_dc l ds with
  | Some dc => Some (<["dc" := VStr dc]> (get_obj h l))
  | None => h !! l
  end.
Proof.
  induction ds as [|d ds IH] using rev_ind; [done|].
  rewrite foldl_app, last_dc_snoc. simpl. unfold tag at 1, set_prop.
  case_decide as Hd.
  - rewrite Hd, lookup_insert_eq. f_equal. unfold get_obj at 1. rewrite IH.
    destruct (last_dc l ds); simpl; [by rewrite insert_insert_eq | done].
  - by rewrite lookup_insert_ne.
Qed.

Lemma tagged_obj l ds (h : store) :
  get_obj (foldl tag h ds) l =
  match last_dc l ds with
  | Some dc => <["dc" := VStr dc]> (get_obj h l)
  | None => get_obj h l
  end.
Proof. unfold get_obj at 1. rewrite tagged_lookup. by destruct (last_dc l ds). Qed.

(** ** [do_machines] on a stream that completes *)

Section Machines.

Variable new_SDC : option string → store → SDC * store.

Lemma do_machines_completed subcmd o (args : list string) os s :
  help o = false → length args ≤ 1 →
  do_machines new_SDC subcmd o args (completed os) s =
  on_end o (accumulate os (start (sdc new_SDC s).2)).
Proof.
  intros Hhelp Hargs. unfold do_machines. rewrite Hhelp.
  rewrite bool_decide_eq_false_2 by lia.
  destruct (sdc new_SDC s) as [d s1]. simpl. apply deliver_completed.
Qed.

Lemma completed_machines o os s :
  machines (on_end o (accumulate os (start s))) = records os.
Proof. simpl. by rewrite accumulate_machines. Qed.

Lemma completed_errs o os s :
  errs (on_end o (accumulate os (start s))) = failures os.
Proof. simpl. by rewrite accumulate_errs. Qed.

Lemma completed_heap o os s :
  heap (st (on_end o (accumulate os (start s)))) = foldl tag (heap s) (deliveries os).
Proof. simpl. by rewrite accumulate_heap. Qed.

Lemma completed_out o os s :
  out (st (on_end o (accumulate os (start s)))) =
  out s ++ [listMachines;
            rendered o machines_table (records os)
              (foldl tag (heap s) (deliveries os));
            callback (end_error (failures os))].
Proof.
  simpl. rewrite accumulate_out, accumulate_machines, accumulate_errs,
    accumulate_heap. simpl. by rewrite <- !app_assoc.
Qed.

End Machines.

(** ** Which DC an object is tagged with *)

Lemma last_dc_Some l dc ds : last_dc l ds = Some dc → (l, dc) ∈ ds.
Proof.
  induction ds as [|d ds IH] using rev_ind; [done|].
  rewrite last_dc_snoc. case_decide as Hd.
  - intros [= <-]. subst l. destruct d. set_solver.
  - intros H. apply IH in H. set_solver.
Qed.

Lemma last_dc_None l ds : last_dc l ds = None → l ∉ ds.*1.
Proof.
  induction ds as [|d ds IH] using rev_ind; [set_solver|].
  rewrite last_dc_snoc. case_decide as Hd; [done|].
  intros H. apply IH in H. rewrite fmap_app. set_solver.
Qed.

Lemma last_dc_is_Some l dc ds : (l, dc) ∈ ds → is_Some (last_dc l ds).
Proof.
  intros Hin. destruct (last_dc l ds) eqn:E; [by eexists|].
  apply last_dc_None in E. exfalso. apply E.
  apply list_elem_of_fmap. by exists (l, dc).
Qed.

(** An object delivered by one DC only ends up tagged with it. *)
Lemma last_dc_unique l dc ds :
  (l, dc) ∈ ds → (∀ dc', (l, dc') ∈ ds → dc' = dc) → last_dc l ds = Some dc.
Proof.
  intros Hin Huniq. destruct (last_dc_is_Some _ _ _ Hin) as [dc' E].
  rewrite E. f_equal. apply Huniq. by apply last_dc_Some.
Qed.

Lemma tagged_with_last l dc ds h :
  last_dc l ds = Some dc → tagged_with (foldl tag h ds) l dc.
Proof. intros E. unfold tagged_with. by rewrite tagged_dc, E. Qed.

Lemma records_delivered os dc ms m :
  Data dc ms ∈ os → m ∈ ms → (m, dc) ∈ deliveries os ∧ m ∈ records os.
Proof.
  intros Hos Hm. split.
  - apply list_elem_of_bind. exists (Data dc ms). split; [|done].
    simpl. apply list_elem_of_fmap. by exists m.
  - apply list_elem_of_bind. by exists (Data dc ms).
Qed.

Lemma failures_delivered os dc e :
  DcError dc e ∈ os → (e, dc) ∈ deliveries os ∧ e ∈ failures os.
Proof.
  intros Hos. split.
  - apply list_elem_of_bind. exists (DcError dc e). split; [|done].
    simpl. apply list_elem_of_here.
  - apply list_elem_of_bind. exists (DcError dc e). split; [|done].
    apply list_elem_of_here.
Qed.

Lemma failures_inv os e : e ∈ failures os → ∃ dc, DcError dc e ∈ os.
Proof.
  intros H. apply list_elem_of_bind in H as (oc & He & Hoc).
  destruct oc as [dc ms|dc e']; [by apply elem_of_nil in He|].
  apply list_elem_of_singleton in He as ->. by exists dc.
Qed.

Lemma records_inv os m : m ∈ records os → ∃ dc ms, Data dc ms ∈ os ∧ m ∈ ms.
Proof.
  intros H. apply list_elem_of_bind in H as (oc & Hm & Hoc).
  destruct oc as [dc ms|dc e]; [by exists dc, ms|by apply elem_of_nil in Hm].
Qed.

(** What is shown of records that have all been delivered. *)
Lemma shows_tagged (h0 : store) ds ms :
  (∀ m, m ∈ ms → ∃ dc, (m, dc) ∈ ds) →
  shows_records (snapshot (foldl tag h0 ds) ms) ms h0 ds.
Proof.
  intros Hdel. split; [unfold snapshot; by rewrite length_fmap|].
  intros i m Hi.
  destruct (Hdel m) as [dc0 Hdc0]; [by apply list_elem_of_lookup_2 in Hi|].
  destruct (last_dc_is_Some _ _ _ Hdc0) as [dc E].
  exists (get_obj (foldl tag h0 ds) m), dc.
  unfold snapshot. rewrite list_lookup_fmap, Hi. split; [done|].
  rewrite tagged_obj, E. split; [apply lookup_insert_eq|].
  split; [by apply last_dc_Some|].
  intros k Hk. by rewrite lookup_insert_ne.
Qed.

Lemma shows_delivered_records (h0 : store) os :
  shows_records (snapshot (foldl tag h0 (deliveries os)) (records os))
    (records os) h0 (deliveries os).
Proof.
  apply shows_tagged. intros m Hm.
  apply records_inv in Hm as (dc & ms & Hev & Hm). exists dc.
  by apply (records_delivered os dc ms m).
Qed.

Lemma end_error_surfaces fs : surfaces (end_error fs) fs.
Proof.
  destruct fs as [|e1 [|e2 fs]]; repeat split; simpl; try done; try lia.
  by intros e [= ->].
Qed.

(** A check that decides [one_dc_per_object] on a given stream. *)
Lemma one_dc_per_object_check os :
  Forall (λ d, Forall (λ d', d.1 = d'.1 → d.2 = d'.2) (deliveries os))
    (deliveries os) →
  one_dc_per_object os.
Proof.
  intros Hall l dc dc' H1 H2.
  rewrite Forall_forall in Hall. specialize (Hall _ H1).
  rewrite Forall_forall in Hall. by apply (Hall _ H2).
Qed.

(** ** Tagging of records *)

Section Tagging.

Variable new_SDC : option string → store → SDC * store.

(** C2.  When [do_machines] runs to the end of a completed stream, every
    record of every 'data' event [(dc, dcMachines)] is in the accumulated
    [machines], which holds the records of all 'data' events and nothing
    else, and its [dc] field is the identifier of that DC.  The stream is
    one of [sdc.listMachines()]: no object is delivered for two DCs. *)
Theorem data_records_tagged subcmd o (args : list string) os s dc ms m :
  help o = false → length args ≤ 1 → one_dc_per_object os →
  Data dc ms ∈ os → m ∈ ms →
  let r := do_machines new_SDC subcmd o args (completed os) s in
  m ∈ machines r
  ∧ machines r = records os
  ∧ tagged_with (heap (st r)) m dc.
Proof.
  intros Hhelp Hargs Hone Hev Hm r. subst r.
  rewrite do_machines_completed by done.
  rewrite completed_machines, completed_heap.
  destruct (records_delivered _ _ _ _ Hev Hm) as [Hdel Hrec].
  split; [done|]. split; [done|].
  apply tagged_with_last, last_dc_unique; [done|].
  intros dc' Hdc'. by apply (Hone m).
Qed.

End Tagging.

Lemma data_records_tagged_witness :
  let r := do_machines no_config "machines" plain []
             (completed partial_failure) sample_state in
  2 ∈ machines r ∧ tagged_with (heap (st r)) 2 "us-east-1".
Proof.
  destruct (data_records_tagged no_config "machines" plain [] partial_failure
              sample_state "us-east-1" [1; 2] 2) as (Hin & _ & Htag).
  - reflexivity.
  - simpl. lia.
  - apply one_dc_per_object_check, (bool_decide_unpack _).
    vm_compute. exact I.
  - apply list_elem_of_further, list_elem_of_here.
  - apply list_elem_of_further, list_elem_of_here.
  - split; [exact Hin | exact Htag].
Defined.

(** Why the streams are taken as [sdc.listMachines()] emits them: the
    handler writes the tag on the object it is handed, so one object handed
    over for two DCs would keep the second tag only. *)
Example shared_record_run :
  let r := do_machines no_config "machines" plain []
             (completed shared_record) sample_state in
  machines r = [1; 1] ∧ tagged_with (heap (st r)) 1 "us-east-1".
Proof. split; reflexivity. Qed.

(** ** What 'end' reports *)

Section Completion.

Variable new_SDC : option string → store → SDC * store.

(** The tag of an error object that was accumulated. *)
Lemma failure_tagged os h e :
  e ∈ failures os →
  ∃ dc, (e, dc) ∈ deliveries os ∧ tagged_with (foldl tag h (deliveries os)) e dc.
Proof.
  intros He. apply failures_inv in He as [dc0 Hev].
  apply failures_delivered in Hev as [Hdel _].
  destruct (last_dc_is_Some _ _ _ Hdel) as [dc E]. exists dc. split.
  - by apply last_dc_Some.
  - by apply tagged_with_last.
Qed.

Lemma failure_tagged_own os h dc e :
  DcError dc e ∈ os → (∀ dc', (e, dc') ∈ deliveries os → dc' = dc) →
  tagged_with (foldl tag h (deliveries os)) e dc.
Proof.
  intros Hev Huniq. apply failures_delivered in Hev as [Hdel _].
  apply tagged_with_last. by apply last_dc_unique.
Qed.

(** C3.  When the stream completes after two or more 'dcError' events,
    [callback] is called once, last, with a [MultiError] built from the
    array [errs], which holds the error object of every 'dcError' event, in
    the order of delivery, none left out.  Each of them carries the tag of
    a DC that delivered it, and the tag of its own 'dcError' event when no
    other DC delivered the same object. *)
Theorem multiple_failures_multierror subcmd o (args : list string) os s :
  help o = false → length args ≤ 1 → 2 ≤ length (failures os) →
  let r := do_machines new_SDC subcmd o args (completed os) s in
  let s1 := (sdc new_SDC s).2 in
  out (st r) =
    out s1 ++ [listMachines;
               rendered o machines_table (records os) (heap (st r));
               callback (Some (MultiError (failures os)))]
  ∧ errs r = failures os
  ∧ (∀ e, e ∈ failures os →
       ∃ dc, (e, dc) ∈ deliveries os ∧ tagged_with (heap (st r)) e dc)
  ∧ (∀ dc e, DcError dc e ∈ os →
       (∀ dc', (e, dc') ∈ deliveries os → dc' = dc) →
       tagged_with (heap (st r)) e dc).
Proof.
  intros Hhelp Hargs Hlen r s1. subst r s1.
  rewrite do_machines_completed by done.
  rewrite completed_out, completed_errs, completed_heap.
  split; [|split; [done|split]].
  - do 4 f_equal. destruct (failures os) as [|e1 [|e2 es]]; simpl in *; [lia|lia|done].
  - intros e He. by apply failure_tagged.
  - intros dc e Hev Huniq. by apply failure_tagged_own.
Qed.

(** C5.  When the stream completes without any 'dcError' event, the
    accumulated records are printed, one item per record of the 'data'
    events and in their order, each with the properties of its record and
    its [dc] tag, and [callback] is called with no error, whatever the
    number of records. *)
Theorem no_failure_no_error subcmd o (args : list string) os s :
  help o = false → length args ≤ 1 → failures os = [] →
  let r := do_machines new_SDC subcmd o args (completed os) s in
  let s1 := (sdc new_SDC s).2 in
  machines r = records os
  ∧ errs r = []
  ∧ ∃ items,
      out (st r) =
        out s1 ++ [listMachines;
                   if json o then print_json items
                   else tabulate items machines_table;
                   callback None]
      ∧ shows_records items (records os) (heap s1) (deliveries os).
Proof.
  intros Hhelp Hargs Hnone r s1. subst r s1.
  rewrite do_machines_completed by done.
  rewrite completed_out, completed_errs, completed_machines.
  rewrite Hnone. split; [done|]. split; [done|].
  exists (snapshot (foldl tag (heap (sdc new_SDC s).2) (deliveries os))
            (records os)).
  split; [|apply shows_delivered_records].
  unfold rendered. by destruct (json o).
Qed.

(** C6.  When the stream completes after exactly one 'dcError' event,
    however many DCs were queried, [callback] receives that error object
    itself, not a [MultiError]; it carries the tag of a DC that delivered
    it, which is the DC of its 'dcError' event when no 'data' event
    delivered the same object. *)
Theorem single_failure_surfaced subcmd o (args : list string) os s e :
  help o = false → length args ≤ 1 → failures os = [e] →
  let r := do_machines new_SDC subcmd o args (completed os) s in
  let s1 := (sdc new_SDC s).2 in
  out (st r) =
    out s1 ++ [listMachines;
               rendered o machines_table (records os) (heap (st r));
               callback (Some (ErrObj e))]
  ∧ (∃ dc, (e, dc) ∈ deliveries os ∧ tagged_with (heap (st r)) e dc)
  ∧ (∀ dc, DcError dc e ∈ os →
       (∀ dc', (e, dc') ∈ deliveries os → dc' = dc) →
       tagged_with (heap (st r)) e dc)
  ∧ (∀ dc, os = [DcError dc e] → tagged_with (heap (st r)) e dc).
Proof.
  intros Hhelp Hargs Hone r s1. subst r s1.
  rewrite do_machines_completed by done.
  rewrite completed_out, completed_heap, Hone.
  split; [done|]. split; [|split].
  - apply failure_tagged. rewrite Hone. apply list_elem_of_here.
  - intros dc Hev Huniq. by apply failure_tagged_own.
  - intros dc ->. apply failure_tagged_own; [apply list_elem_of_here|].
    intros dc' H. apply list_elem_of_singleton in H. by injection H.
Qed.

(** Without its failures, a stream tags a record that is not itself
    delivered as an error object the same way. *)
Lemma failures_leave_records (h : store) os m :
  m ∉ failures os →
  get_obj (foldl tag h (deliveries os)) m
  = get_obj (foldl tag h (deliveries (filter is_data os))) m.
Proof.
  intros Hm. revert h.
  induction os as [|oc os IH] using rev_ind; [done|]. intros h.
  rewrite failures_snoc in Hm. apply not_elem_of_app in Hm as [Hm1 Hm2].
  rewrite filter_app, deliveries_snoc. rewrite foldl_app.
  destruct oc as [dc ms|dc e].
  - rewrite filter_cons. simpl. unfold deliveries at 2.
    rewrite bind_app. fold (deliveries (filter is_data os)).
    simpl. rewrite app_nil_r, foldl_app.
    specialize (IH Hm1 h). revert IH.
    generalize (foldl tag h (deliveries os)).
    generalize (foldl tag h (deliveries (filter is_data os))).
    induction ms as [|m' ms IHms]; intros h1 h2 Heq; simpl; [done|].
    apply IHms. unfold tag, set_prop. simpl.
    unfold get_obj in *. destruct (decide (m' = m)) as [->|Hne].
    + rewrite !lookup_insert_eq. simpl. by rewrite Heq.
    + by rewrite !lookup_insert_ne.
  - rewrite filter_cons. simpl. rewrite app_nil_r.
    unfold tag at 1. simpl. rewrite get_obj_set_prop_ne; [by apply IH|].
    intros ->. apply Hm2. apply list_elem_of_here.
Qed.

Lemma records_without_failures os : records (filter is_data os) = records os.
Proof.
  induction os as [|[dc ms|dc e] os IH]; [done| |].
  - rewrite filter_cons. simpl. unfold records in *. simpl. by rewrite IH.
  - rewrite filter_cons. simpl. apply IH.
Qed.

Lemma failures_without_failures os : failures (filter is_data os) = [].
Proof.
  induction os as [|[dc ms|dc e] os IH]; [done| |].
  - rewrite filter_cons. simpl. unfold failures in *. simpl. by rewrite IH.
  - rewrite filter_cons. simpl. apply IH.
Qed.

(** C4.  Failures take no record away.  The records accumulated are those
    of all 'data' events, the same as if the failing DCs had not been part
    of the run.  They are printed, one item per record and in their order,
    each with the properties of its record and its [dc] tag, before
    [callback] reports the failures; and a record that is not itself
    delivered as an error object is printed exactly as it is printed
    without the failures. *)
Theorem partial_success_rendered subcmd o (args : list string) os s :
  help o = false → length args ≤ 1 →
  let r := do_machines new_SDC subcmd o args (completed os) s in
  let r' := do_machines new_SDC subcmd o args (completed (filter is_data os)) s in
  let s1 := (sdc new_SDC s).2 in
  machines r = records os
  ∧ machines r = machines r'
  ∧ (∃ items items' err,
       out (st r) =
         out s1 ++ [listMachines;
                    if json o then print_json items
                    else tabulate items machines_table;
                    callback err]
       ∧ out (st r') =
           out s1 ++ [listMachines;
                      if json o then print_json items'
                      else tabulate items' machines_table;
                      callback None]
       ∧ shows_records items (records os) (heap s1) (deliveries os)
       ∧ surfaces err (failures os)
       ∧ length items' = length items
       ∧ ∀ i m, records os !! i = Some m → m ∉ failures os →
           items' !! i = items !! i)
  ∧ (∀ m, m ∈ records os → m ∉ failures os →
       get_obj (heap (st r)) m = get_obj (heap (st r')) m).
Proof.
  intros Hhelp Hargs r r' s1. subst r r' s1.
  rewrite !do_machines_completed by done.
  rewrite !completed_out, !completed_heap, !completed_machines.
  rewrite records_without_failures, failures_without_failures.
  set (h := heap (sdc new_SDC s).2).
  split; [done|]. split; [done|]. split.
  - exists (snapshot (foldl tag h (deliveries os)) (records os)),
      (snapshot (foldl tag h (deliveries (filter is_data os))) (records os)),
      (end_error (failures os)).
    split; [unfold rendered; by destruct (json o)|].
    split; [unfold rendered; by destruct (json o)|].
    split; [apply shows_delivered_records|].
    split; [apply end_error_surfaces|].
    split; [unfold snapshot; by rewrite !length_fmap|].
    intros i m Hi Hm. unfold snapshot. rewrite !list_lookup_fmap, Hi. simpl.
    f_equal. symmetry. by apply failures_leave_records.
  - intros m _ Hm. by apply failures_leave_records.
Qed.

(** C7.  A stream that ends without any outcome: nothing is accumulated,
    an empty list is printed and [callback] is called with no error.  This
    is the stream the fan-out emits for an empty set of DCs: 'end' at once,
    and no unit of work left to complete. *)
Theorem empty_run subcmd o (args : list string) s :
  help o = false → length args ≤ 1 →
  let r := do_machines new_SDC subcmd o args (completed []) s in
  let s1 := (sdc new_SDC s).2 in
  (machines r = [] ∧ errs r = [] ∧ heap (st r) = heap s1
   ∧ out (st r) =
       out s1 ++ [listMachines; rendered o machines_table [] (heap s1);
                  callback None])
  ∧ (emitted (launch []) = completed []
     ∧ ∀ (Query : Type) (call : DatacenterId → Query → call_result) query f,
         ¬ step call query (launch []) f).
Proof.
  intros Hhelp Hargs r s1. subst r s1.
  rewrite do_machines_completed by done.
  rewrite completed_out, completed_errs, completed_heap, completed_machines.
  split; [done|]. split; [done|].
  intros Q call query f [i Hi]. unfold complete in Hi. simpl in Hi. done.
Qed.

End Completion.

(** ** The theorems on 'end', on sample streams *)

Lemma multiple_failures_multierror_witness :
  let r := do_machines no_config "machines" plain []
             (completed all_failing) sample_state in
  last (out (st r)) = Some (callback (Some (MultiError [7; 8; 9])))
  ∧ tagged_with (heap (st r)) 8 "b".
Proof.
  destruct (multiple_failures_multierror no_config "machines" plain []
              all_failing sample_state) as (Hout & _ & _ & Hown).
  - reflexivity.
  - simpl. lia.
  - simpl. lia.
  - split.
    + rewrite Hout. reflexivity.
    + apply Hown.
      * apply list_elem_of_further, list_elem_of_here.
      * intros dc' Hin. vm_compute in Hin.
        apply elem_of_cons in Hin as [[=]|Hin].
        apply elem_of_cons in Hin as [[= ->]|Hin]; [reflexivity|].
        apply elem_of_cons in Hin as [[=]|Hin].
        by apply elem_of_nil in Hin.
Defined.

Lemma no_failure_no_error_witness :
  let r := do_machines no_config "machines" as_json []
             (completed all_delivering) sample_state in
  machines r = [1; 2]
  ∧ ∃ items,
      out (st r) = [read_sdc; listMachines; print_json items; callback None]
      ∧ length items = 2
      ∧ ∃ item, items !! 0 = Some item
                ∧ item !! "id" = Some (VStr "e91897cf").
Proof.
  destruct (no_failure_no_error no_config "machines" as_json []
              all_delivering sample_state)
    as (Hm & _ & items & Hout & Hlen & Hitems).
  - reflexivity.
  - simpl. lia.
  - reflexivity.
  - split; [exact Hm|]. exists items. split; [exact Hout|].
    split; [exact Hlen|].
    destruct (Hitems 0 1 eq_refl) as (item & dc & Hitem & _ & _ & Hk).
    exists item. split; [exact Hitem|]. by rewrite (Hk "id").
Defined.

Lemma single_failure_surfaced_witness :
  let r := do_machines no_config "machines" plain []
             (completed partial_failure) sample_state in
  last (out (st r)) = Some (callback (Some (ErrObj 7)))
  ∧ ∃ dc, tagged_with (heap (st r)) 7 dc.
Proof.
  destruct (single_failure_surfaced no_config "machines" plain []
              partial_failure sample_state 7) as (Hout & (dc & _ & Htag) & _).
  - reflexivity.
  - simpl. lia.
  - reflexivity.
  - split; [rewrite Hout; reflexivity|]. by exists dc.
Defined.

Lemma partial_success_rendered_witness :
  let r := do_machines no_config "machines" plain []
             (completed partial_failure) sample_state in
  machines r = [1; 2]
  ∧ ∃ items,
      out (st r) = [read_sdc; listMachines; tabulate items machines_table;
                    callback (Some (ErrObj 7))]
      ∧ length items = 2
      ∧ ∃ item, items !! 1 = Some item
                ∧ item !! "id" = Some (VStr "0c5d2a11").
Proof.
  destruct (partial_success_rendered no_config "machines" plain []
              partial_failure sample_state)
    as (Hm & _ & (items & items' & err & Hout & _ & (Hlen & Hitems)
                  & (_ & Hone & _) & _) & _).
  - reflexivity.
  - simpl. lia.
  - split; [exact Hm|]. exists items.
    rewrite (Hone 7 eq_refl) in Hout. split; [exact Hout|].
    split; [exact Hlen|].
    destruct (Hitems 1 2 eq_refl) as (item & dc & Hitem & _ & _ & Hk).
    exists item. split; [exact Hitem|]. by rewrite (Hk "id").
Defined.

Lemma empty_run_witness :
  let r := do_machines no_config "machines" as_json [] (completed []) fresh_state in
  machines r = []
  ∧ out (st r) = [read_sdc; listMachines; print_json []; callback None].
Proof.
  destruct (empty_run no_config "machines" as_json [] fresh_state)
    as ((Hm & _ & _ & Hout) & _).
  - reflexivity.
  - simpl. lia.
  - split; [exact Hm|]. rewrite Hout. reflexivity.
Defined.

(** The partial failure of the specification's scenario B, in full. *)
Example partial_failure_run :
  let r := do_machines no_config "machines" plain []
             (completed partial_failure) sample_state in
  machines r = [1; 2] ∧ errs r = [7]
  ∧ tagged_with (heap (st r)) 1 "us-east-1"
  ∧ tagged_with (heap (st r)) 2 "us-east-1"
  ∧ tagged_with (heap (st r)) 7 "us-west-1"
  ∧ get_prop (heap (st r)) 1 "id" = Some (VStr "e91897cf").
Proof. repeat split; reflexivity. Qed.

(** An error object that two DCs deliver is surfaced twice, with the tag
    of the DC that delivered it last. *)
Example shared_error_run :
  let r := do_machines no_config "machines" plain []
             (completed [DcError "a" 7; DcError "b" 7]) sample_state in
  last (out (st r)) = Some (callback (Some (MultiError [7; 7])))
  ∧ tagged_with (heap (st r)) 7 "b".
Proof. split; reflexivity. Qed.

(** ** The fan-out: one outcome per DC, then 'end' *)

Section FanOutProps.

Context {Query : Type}.
Variable call : DatacenterId → Query → call_result.
Variable query : Query.

Lemma outcome_dc_of dc : outcome_dc (outcome_of call query dc) = dc.
Proof. unfold outcome_of. by destruct (call dc query). Qed.

Lemma launch_inv dcs : fan_inv call query dcs (launch dcs).
Proof.
  split; [done|]. exists []. simpl. split.
  - destruct dcs; by case_decide.
  - by rewrite app_nil_r.
Qed.

Lemma complete_length i f f' :
  complete call query i f = Some f' → length (pending f) = S (length (pending f')).
Proof.
  unfold complete. destruct (pending f !! i) as [dc|] eqn:E; [|done].
  simpl. intros [= <-]. simpl. rewrite length_delete by (by eexists).
  apply lookup_lt_Some in E. lia.
Qed.

Lemma complete_inv dcs i f f' :
  fan_inv call query dcs f → complete call query i f = Some f' →
  fan_inv call query dcs f'.
Proof.
  intros [Hcount (os & Hem & Hperm)] Hstep.
  pose proof (complete_length _ _ _ Hstep) as Hlen.
  unfold complete in Hstep.
  destruct (pending f !! i) as [dc|] eqn:E; [|done].
  simpl in Hstep. injection Hstep as <-. simpl in *.
  split; simpl; [lia|]. exists (os ++ [outcome_of call query dc]).
  assert (Hne : pending f ≠ []) by (intros Hnil; by rewrite Hnil in E).
  rewrite decide_False in Hem by done. rewrite app_nil_r in Hem.
  split.
  - rewrite Hem, fmap_app, <- app_assoc. simpl. do 2 f_equal.
    destruct (delete i (pending f)) as [|x l] eqn:Ed.
    + rewrite decide_True by (simpl in Hlen; lia). by rewrite decide_True.
    + rewrite decide_False by (simpl in Hlen; lia). by rewrite decide_False.
  - pose proof (delete_Permutation _ _ _ E) as Hd.
    apply (fmap_Permutation (outcome_of call query)) in Hd.
    rewrite fmap_cons in Hd. rewrite <- Hperm, Hd. simpl.
    rewrite (app_assoc _ os). symmetry. apply Permutation_cons_append.
Qed.

Lemma run_schedule_inv dcs sched f f' :
  fan_inv call query dcs f → run_schedule call query sched f = Some f' →
  fan_inv call query dcs f' ∧ length (pending f) = length sched + length (pending f').
Proof.
  revert f. induction sched as [|i sched IH]; intros f Hinv Hrun; simpl in *.
  - injection Hrun as <-. done.
  - destruct (complete call query i f) as [f1|] eqn:E; [|done]. simpl in Hrun.
    destruct (IH f1 (complete_inv _ _ _ _ Hinv E) Hrun) as [Hinv' Hl].
    split; [done|]. apply complete_length in E. lia.
Qed.

(** The schedule that always completes the first pending unit. *)
Lemma run_in_order f :
  ∃ f', run_schedule call query (replicate (length (pending f)) 0) f = Some f'
        ∧ pending f' = [].
Proof.
  remember (length (pending f)) as n eqn:Hn. revert f Hn.
  induction n as [|n IH]; intros f Hn; simpl.
  - exists f. split; [done|]. by destruct (pending f).
  - unfold complete. destruct (pending f) as [|dc l] eqn:E; [done|]. simpl.
    apply IH. simpl in *. lia.
Qed.

Lemma progress f : pending f ≠ [] → ∃ f', step call query f f'.
Proof.
  destruct (pending f) as [|dc l] eqn:E; [done|]. intros _.
  unfold step. eexists. exists 0. unfold complete. rewrite E. simpl. reflexivity.
Qed.

Lemma count_one (dcs : list DatacenterId) dc :
  NoDup dcs → dc ∈ dcs → filter (λ d, d = dc) dcs = [dc].
Proof.
  induction 1 as [|d dcs Hnot Hnd IH]; intros Hin; [by apply elem_of_nil in Hin|].
  rewrite filter_cons. case_decide as Hd.
  - subst d. f_equal. clear -Hnot.
    induction dcs as [|d dcs IH]; [done|].
    rewrite filter_cons. apply not_elem_of_cons in Hnot as [Hne Hnot].
    rewrite decide_False by done. by apply IH.
  - apply IH. apply elem_of_cons in Hin as [->|Hin]; done.
Qed.

Lemma outcomes_split (os : list outcome) :
  length (filter is_data os) + length (failures os) = length os.
Proof.
  induction os as [|[dc ms|dc e] os IH]; [done| |].
  - rewrite filter_cons. simpl. unfold failures in *. simpl. lia.
  - rewrite filter_cons. simpl. unfold failures in *. simpl. lia.
Qed.

End FanOutProps.

Section FanOutRuns.

Context {Query : Type}.
Variable call : DatacenterId → Query → call_result.
Variable query : Query.

Lemma filter_outcome_of (dcs : list DatacenterId) dc :
  filter (λ oc, outcome_dc oc = dc) (outcome_of call query <$> dcs)
  = outcome_of call query <$> filter (λ d, d = dc) dcs.
Proof.
  induction dcs as [|d dcs IH]; [done|].
  rewrite fmap_cons, !filter_cons, outcome_dc_of.
  destruct (decide (d = dc)); [rewrite fmap_cons; f_equal|]; exact IH.
Qed.

(** C1.  A fan-out over a set of DCs, whatever the order in which its units
    complete: it can always be driven to completion and cannot stop before;
    'end' is not emitted while a unit is pending; and once no unit is
    pending, what has been emitted is exactly one outcome per DC (the one
    its call produced, a record batch or a failure) followed by one 'end',
    so that the errors [do_machines] accumulates and the DCs that delivered
    add up to the DCs queried. *)
Theorem one_outcome_per_dc (dcs : list DatacenterId) :
  NoDup dcs →
  (∃ sched f, run_schedule call query sched (launch dcs) = Some f
              ∧ pending f = [])
  ∧ (∀ sched f, run_schedule call query sched (launch dcs) = Some f →
       (pending f ≠ [] → (End ∉ emitted f) ∧ ∃ f', step call query f f')
       ∧ (pending f = [] →
            ∃ os, emitted f = completed os
                  ∧ length os = length dcs
                  ∧ (∀ o s, errs (deliver o (emitted f) (start s)) = failures os)
                  ∧ (length (filter is_data os) + length (failures os)
                     = length dcs)
                  ∧ ∀ dc, dc ∈ dcs →
                      filter (λ oc, outcome_dc oc = dc) os
                      = [outcome_of call query dc])).
Proof.
  intros Hnd. split.
  - destruct (run_in_order call query (launch dcs)) as (f & Hrun & Hdone).
    by exists (replicate (length (pending (launch dcs))) 0), f.
  - intros sched f Hrun.
    destruct (run_schedule_inv call query dcs sched _ _ (launch_inv call query dcs) Hrun)
      as [[Hcount (os & Hem & Hperm)] _].
    split.
    + intros Hne. split; [|by apply progress].
      rewrite decide_False in Hem by done. rewrite app_nil_r in Hem.
      rewrite Hem. intros Hin. apply list_elem_of_fmap in Hin as (oc & Hoc & _).
      discriminate Hoc.
    + intros Hnil. rewrite decide_True in Hem by done.
      rewrite Hnil in Hperm. simpl in Hperm. exists os.
      assert (Hlen : length os = length dcs).
      { apply Permutation_length in Hperm. by rewrite length_fmap in Hperm. }
      split; [done|]. split; [done|]. split.
      { intros o s. rewrite Hem.
        change ((Outcome <$> os) ++ [End]) with (completed os).
        rewrite deliver_completed. apply completed_errs. }
      split.
      { by rewrite outcomes_split. }
      intros dc Hdc. apply Permutation_singleton_r.
      rewrite Hperm, filter_outcome_of. by rewrite count_one.
Qed.

End FanOutRuns.

Lemma one_outcome_per_dc_witness :
  ∃ f os,
    run_schedule sample_call "machines" [1; 0] (launch ["us-west-1"; "us-east-1"])
      = Some f
    ∧ emitted f = completed os ∧ length os = 2.
Proof.
  assert (Hnd : NoDup ["us-west-1"; "us-east-1"]).
  { apply (bool_decide_unpack _). vm_compute. exact I. }
  destruct (one_outcome_per_dc sample_call "machines" _ Hnd) as [_ Hall].
  eexists.
  destruct (Hall [1; 0] _ eq_refl) as [_ Hdone].
  destruct (Hdone eq_refl) as (os & Hem & Hlen & _).
  exists os. split; [reflexivity|]. split; [exact Hem|exact Hlen].
Defined.

Example fan_out_any_order :
  emitted <$> run_schedule sample_call "machines" [1; 0]
                (launch ["us-west-1"; "us-east-1"])
  = Some (completed [Data "us-east-1" [1; 2]; DcError "us-west-1" 7])
  ∧ emitted <$> run_schedule sample_call "machines" [0; 0]
                  (launch ["us-west-1"; "us-east-1"])
    = Some (completed [DcError "us-west-1" 7; Data "us-east-1" [1; 2]]).
Proof. split; reflexivity. Qed.

(** ** Running twice *)

(** Tagging again with the same deliveries changes nothing. *)
Lemma tag_twice ds (h : store) : foldl tag (foldl tag h ds) ds = foldl tag h ds.
Proof.
  apply map_eq. intros l. rewrite (tagged_lookup l ds (foldl tag h ds)).
  destruct (last_dc l ds) as [dc|] eqn:E; [|done].
  rewrite tagged_obj, tagged_lookup, E. by rewrite insert_insert_eq.
Qed.

(** Objects tagged by one DC only: the order of the deliveries is immaterial. *)
Lemma last_dc_perm l ds ds' :
  ds ≡ₚ ds' →
  (∀ dc dc', (l, dc) ∈ ds → (l, dc') ∈ ds → dc = dc') →
  last_dc l ds = last_dc l ds'.
Proof.
  intros Hperm Huniq. destruct (last_dc l ds) as [dc|] eqn:E.
  - apply last_dc_Some in E. symmetry. apply last_dc_unique.
    + by rewrite <- Hperm.
    + intros dc' H'. rewrite <- Hperm in H'. by apply (Huniq dc' dc).
  - apply last_dc_None in E. destruct (last_dc l ds') as [dc|] eqn:E'; [|done].
    apply last_dc_Some in E'. rewrite <- Hperm in E'. exfalso. apply E.
    apply list_elem_of_fmap. by exists (l, dc).
Qed.

Section Twice.

Variable new_SDC : option string → store → SDC * store.

Lemma sdc_cached s : _sdc (sdc new_SDC s).2 = Some (sdc new_SDC s).1.
Proof.
  unfold sdc. destruct (_sdc s) eqn:E; simpl; [done|].
  by destruct (new_SDC (opts_profile s) (heap s)).
Qed.

Lemma sdc_again s d : _sdc s = Some d → sdc new_SDC s = (d, emit_action read_sdc s).
Proof. intros E. unfold sdc. by rewrite E. Qed.

(** C8.  The result of [do_machines] is a function of the outcomes
    delivered.  Running it a second time over the same stream, in the
    state the first run left, accumulates the same records and the same
    errors and leaves every object as it was.  Running it over the same
    outcomes in another order accumulates the same records and the same
    errors up to the order of the DCs, and every object that one DC only
    delivers ends up the same. *)
Theorem accumulation_idempotent subcmd o (args : list string) os os' s :
  help o = false → length args ≤ 1 → os ≡ₚ os' →
  let r1 := do_machines new_SDC subcmd o args (completed os) s in
  let r2 := do_machines new_SDC subcmd o args (completed os) (st r1) in
  let r' := do_machines new_SDC subcmd o args (completed os') s in
  (machines r2 = machines r1 ∧ errs r2 = errs r1
   ∧ heap (st r2) = heap (st r1))
  ∧ (machines r' ≡ₚ machines r1 ∧ errs r' ≡ₚ errs r1
     ∧ ∀ l, (∀ dc dc', (l, dc) ∈ deliveries os → (l, dc') ∈ deliveries os →
               dc = dc') →
            get_obj (heap (st r')) l = get_obj (heap (st r1)) l).
Proof.
  intros Hhelp Hargs Hperm r1 r2 r'. subst r1 r2 r'.
  rewrite !do_machines_completed by done.
  rewrite !completed_machines, !completed_errs, !completed_heap.
  split; [split; [done|split; [done|]]|split; [|split]].
  - set (r1 := on_end o (accumulate os (start (sdc new_SDC s).2))).
    assert (Hsdc : _sdc (st r1) = Some (sdc new_SDC s).1).
    { subst r1. simpl. rewrite accumulate_sdc. simpl. apply sdc_cached. }
    assert (Hh : heap (sdc new_SDC (st r1)).2 = heap (st r1))
      by (by rewrite (sdc_again _ _ Hsdc)).
    rewrite Hh. subst r1. rewrite completed_heap. apply tag_twice.
  - unfold records. by rewrite Hperm.
  - unfold failures. by rewrite Hperm.
  - intros l Huniq. rewrite !tagged_obj.
    assert (Hds : deliveries os ≡ₚ deliveries os')
      by (unfold deliveries; by rewrite Hperm).
    by rewrite (last_dc_perm l _ _ Hds Huniq).
Qed.

End Twice.

Lemma accumulation_idempotent_witness :
  let r1 := do_machines no_config "machines" plain []
              (completed partial_failure) sample_state in
  let r' := do_machines no_config "machines" plain []
              (completed (reverse partial_failure)) sample_state in
  machines r' ≡ₚ machines r1 ∧ errs r' ≡ₚ errs r1
  ∧ get_obj (heap (st r')) 7 = get_obj (heap (st r1)) 7.
Proof.
  destruct (accumulation_idempotent no_config "machines" plain []
              partial_failure (reverse partial_failure) sample_state)
    as (_ & Hm & He & Hobj).
  - reflexivity.
  - simpl. lia.
  - apply Permutation_swap.
  - split; [exact Hm|]. split; [exact He|]. apply Hobj.
    intros dc dc' H1 H2. vm_compute in H1, H2.
    apply elem_of_cons in H1 as [[= ->]|H1].
    + apply elem_of_cons in H2 as [[= ->]|H2]; [reflexivity|].
      apply elem_of_cons in H2 as [[=]|H2].
      apply elem_of_cons in H2 as [[=]|H2].
      by apply elem_of_nil in H2.
    + apply elem_of_cons in H1 as [[=]|H1].
      apply elem_of_cons in H1 as [[=]|H1].
      by apply elem_of_nil in H1.
Defined.

(** ** Too many arguments *)

Section TooManyArgs.

Variable new_SDC : option string → store → SDC * store.

(** C9, as amended.  Called without the help option and with more than one
    positional argument, each of the three commands does one thing only: it
    calls [callback] with the 'too many args' error.  It does so whatever
    the stream would deliver, without evaluating [this.sdc] (no
    configuration is read, no [SDC] is created) and without calling
    [listMachines]. *)
Theorem too_many_args_fails subcmd o (args : list string) evs s :
  help o = false → 1 < length args →
  let failed := emit_action (callback (Some (too_many_args args))) s in
  do_machines new_SDC subcmd o args evs s
    = {| machines := []; errs := []; st := failed |}
  ∧ do_profile new_SDC subcmd o args s = failed
  ∧ do_dcs new_SDC subcmd o args s = failed
  ∧ out failed = out s ++ [callback (Some (too_many_args args))]
  ∧ _sdc failed = _sdc s ∧ heap failed = heap s.
Proof.
  intros Hhelp Hargs failed. subst failed.
  unfold do_machines, do_profile, do_dcs. rewrite Hhelp.
  rewrite bool_decide_eq_true_2 by done. done.
Qed.

End TooManyArgs.

Lemma too_many_args_fails_witness :
  do_profile no_config "profile" plain ["a"; "b"] fresh_state
  = emit_action (callback (Some (Error "too many args: a,b"))) fresh_state.
Proof.
  destruct (too_many_args_fails no_config "profile" plain ["a"; "b"] []
              fresh_state) as (_ & Hprofile & _).
  - reflexivity.
  - simpl. lia.
  - exact Hprofile.
Defined.

(** C9, as stated, fails when the help option is given: the commands test
    [opts.help] first and hand over to [do_help], whatever the number of
    arguments. *)
Lemma help_before_too_many_args :
  ¬ (∀ o (args : list string), 1 < length args →
       st (do_machines no_config "machines" o args [] fresh_state)
       = emit_action (callback (Some (too_many_args args))) fresh_state)
  ∧ ¬ (∀ o (args : list string), 1 < length args →
         do_profile no_config "profile" o args fresh_state
         = emit_action (callback (Some (too_many_args args))) fresh_state)
  ∧ ¬ (∀ o (args : list string), 1 < length args →
         do_dcs no_config "dcs" o args fresh_state
         = emit_action (callback (Some (too_many_args args))) fresh_state).
Proof.
  repeat split; intros Hclaim;
    specialize (Hclaim with_help ["a"; "b"]);
    (assert (Hlen : 1 < length ["a"; "b"]) by (simpl; lia));
    specialize (Hclaim Hlen); discriminate Hclaim.
Qed.

Example help_with_two_args :
  out (st (do_machines no_config "machines" with_help ["a"; "b"] [] fresh_state))
  = [do_help ["machines"]].
Proof. reflexivity. Qed.

(** ** [do_profile] works on a copy *)

Lemma deepObjCopy_frame ls (h : store) : h ⊆ (deepObjCopy ls h).2.
Proof.
  revert h. induction ls as [|l ls IH]; intros h; simpl; [done|].
  specialize (IH (<[fresh (dom h) := get_obj h l]> h)).
  destruct (deepObjCopy ls _) as [cs h']. simpl in *.
  etrans; [|exact IH]. apply insert_subseteq.
  apply not_elem_of_dom, is_fresh.
Qed.

Lemma deepObjCopy_fresh ls (h : store) c :
  c ∈ (deepObjCopy ls h).1 → h !! c = None.
Proof.
  revert h. induction ls as [|l ls IH]; intros h; simpl.
  - intros H. by apply elem_of_nil in H.
  - specialize (IH (<[fresh (dom h) := get_obj h l]> h)).
    destruct (deepObjCopy ls _) as [cs h']. simpl in *.
    intros [->|Hc]%elem_of_cons.
    + apply not_elem_of_dom, is_fresh.
    + apply IH in Hc. by apply lookup_insert_None in Hc as [? _].
Qed.

Lemma annotate_profile_frame c p (h : store) l :
  l ≠ p → (annotate_profile c p h).1 !! l = h !! l.
Proof.
  intros Hne. unfold annotate_profile.
  destruct (truthy _); [destruct (get_prop _ p "dcs") as [[]|]|]; simpl;
    unfold set_prop; by rewrite ?lookup_insert_ne.
Qed.

Lemma annotate_frame c profs (h : store) l :
  l ∉ profs → (annotate c profs h).1 !! l = h !! l.
Proof.
  revert h. induction profs as [|p profs IH]; intros h Hl; simpl; [done|].
  apply not_elem_of_cons in Hl as [Hne Hl].
  pose proof (annotate_profile_frame c p h l Hne) as Hp.
  destruct (annotate_profile c p h) as [h' ok]. simpl in Hp.
  destruct ok; [|done]. by rewrite IH.
Qed.

Lemma get_obj_set_prop_eq l k v (h : store) :
  get_obj (set_prop l k v h) l = <[k := v]> (get_obj h l).
Proof. unfold set_prop, get_obj at 1. by rewrite lookup_insert_eq. Qed.

Lemma get_obj_subseteq (h h' : store) l :
  h ⊆ h' → is_Some (h !! l) → get_obj h' l = get_obj h l.
Proof.
  intros Hsub [ob Hl]. unfold get_obj.
  by rewrite (lookup_weaken _ _ _ _ Hl Hsub), Hl.
Qed.

Lemma deepObjCopy_snapshot ls (h : store) :
  (∀ l, l ∈ ls → is_Some (h !! l)) →
  NoDup (deepObjCopy ls h).1
  ∧ snapshot (deepObjCopy ls h).2 (deepObjCopy ls h).1 = snapshot h ls.
Proof.
  revert h. induction ls as [|l ls IH]; intros h Hwf; simpl.
  - split; [constructor|done].
  - set (c0 := fresh (dom h)). set (h0 := <[c0 := get_obj h l]> h).
    assert (Hc0 : h !! c0 = None) by apply not_elem_of_dom, is_fresh.
    assert (Hsub : h ⊆ h0) by by apply insert_subseteq.
    pose proof (deepObjCopy_frame ls h0) as Hframe.
    pose proof (deepObjCopy_fresh ls h0) as Hfresh.
    destruct (IH h0) as [Hnd Hsnap].
    { intros l' Hl'. destruct (Hwf l') as [ob Hob]; [set_solver|].
      exists ob. by apply (lookup_weaken _ _ _ _ Hob Hsub). }
    destruct (deepObjCopy ls h0) as [cs h']. simpl in *.
    split.
    + constructor; [|done]. intros Hin. apply Hfresh in Hin.
      subst h0. by rewrite lookup_insert_eq in Hin.
    + f_equal.
      * rewrite (get_obj_subseteq h0 h' c0 Hframe).
        -- subst h0. unfold get_obj at 1. by rewrite lookup_insert_eq.
        -- subst h0. rewrite lookup_insert_eq. by eexists.
      * rewrite Hsnap. unfold snapshot. apply list_fmap_ext.
        intros i l' Hl'. apply get_obj_subseteq; [done|].
        apply Hwf. apply elem_of_cons. right.
        by apply list_elem_of_lookup_2 in Hl'.
Qed.

Lemma annotate_profile_obj c p (h : store) :
  (if joinable (get_obj h p)
   then (annotate_profile c p h).2 = true
        ∧ get_obj (annotate_profile c p h).1 p = annotated c (get_obj h p)
   else (annotate_profile c p h).2 = false).
Proof.
  unfold annotate_profile, joinable, annotated.
  rewrite get_prop_set_prop_other by done. unfold get_prop.
  destruct (get_obj h p !! "dcs") as [v|] eqn:E.
  - destruct v as [|b|n|s|l]; simpl.
    + by rewrite !get_obj_set_prop_eq.
    + destruct b; simpl; [done|]. by rewrite !get_obj_set_prop_eq.
    + destruct (n =? 0)%Z; simpl; [|done]. by rewrite !get_obj_set_prop_eq.
    + destruct (String.eqb s ""); simpl; [|done]. by rewrite !get_obj_set_prop_eq.
    + by rewrite !get_obj_set_prop_eq.
  - simpl. by rewrite !get_obj_set_prop_eq.
Qed.

Lemma annotate_snapshot c profs (h : store) :
  NoDup profs →
  (if forallb joinable (snapshot h profs)
   then (annotate c profs h).2 = true
        ∧ snapshot (annotate c profs h).1 profs = annotated c <$> snapshot h profs
   else (annotate c profs h).2 = false).
Proof.
  revert h. induction profs as [|p profs IH]; intros h Hnd; simpl; [done|].
  apply NoDup_cons in Hnd as [Hp Hnd].
  pose proof (annotate_profile_obj c p h) as Hobj.
  pose proof (annotate_profile_frame c p h) as Hframe.
  destruct (annotate_profile c p h) as [h' ok]. simpl in *.
  destruct (joinable (get_obj h p)); simpl; [|by rewrite Hobj].
  destruct Hobj as [-> Hobj].
  assert (Hsame : snapshot h' profs = snapshot h profs).
  { unfold snapshot. apply list_fmap_ext. intros i q Hq.
    unfold get_obj. rewrite Hframe; [done|].
    intros ->. apply Hp. by apply list_elem_of_lookup_2 in Hq. }
  specialize (IH h' Hnd). rewrite Hsame in IH.
  destruct (forallb joinable (snapshot h profs)); [|done].
  destruct IH as [Hok Hsnap]. split; [done|]. f_equal; [|done].
  unfold get_obj at 1. rewrite annotate_frame by done.
  exact Hobj.
Qed.

Section Profile.

Variable new_SDC : option string → store → SDC * store.

(** [do_profile] past its two guards. *)
Lemma do_profile_runs subcmd o (args : list string) s :
  help o = false → length args ≤ 1 →
  let d := (sdc new_SDC s).1 in
  let s1 := (sdc new_SDC s).2 in
  let copy := deepObjCopy (profiles d) (heap s1) in
  let done := annotate (profile_name d) copy.1 copy.2 in
  let s3 := with_heap done.1 (emit_action read_sdc s1) in
  do_profile new_SDC subcmd o args s =
  if done.2 then emit_action (callback None) (render o profiles_table copy.1 s3)
  else emit_action throw_TypeError s3.
Proof.
  intros Hhelp Hargs. unfold do_profile. rewrite Hhelp.
  rewrite bool_decide_eq_false_2 by lia.
  pose proof (sdc_cached new_SDC s) as Hcached.
  destruct (sdc new_SDC s) as [d s1]. simpl in *.
  destruct (deepObjCopy (profiles d) (heap s1)) as [profs h1]. simpl.
  rewrite (sdc_again new_SDC (with_heap h1 s1) d) by done. simpl.
  destruct (annotate (profile_name d) profs h1) as [h2 ok]. simpl.
  by destruct ok.
Qed.

(** C10.  [do_profile] leaves every object that exists when it reads
    [this.sdc.profiles] as it is, the profiles among them, and leaves
    [this.sdc] in place: what it marks with [curr] and whose [dcs] it joins
    are copies.  What it prints are the profiles so annotated; when some
    [dcs] has no [join], it throws before printing.  Called with the help
    option or with too many arguments, it touches no object at all. *)
Theorem do_profile_keeps_profiles subcmd o (args : list string) s :
  let s' := do_profile new_SDC subcmd o args s in
  if help o || bool_decide (1 < length args)
  then heap s' = heap s ∧ _sdc s' = _sdc s
  else
    let d := (sdc new_SDC s).1 in
    let s1 := (sdc new_SDC s).2 in
    let items := annotated (profile_name d) <$> snapshot (heap s1) (profiles d) in
    _sdc s' = Some d
    ∧ heap s1 ⊆ heap s'
    ∧ (∀ p ob, p ∈ profiles d → heap s1 !! p = Some ob → heap s' !! p = Some ob)
    ∧ ((∀ p, p ∈ profiles d → is_Some (heap s1 !! p)) →
       snapshot (heap s') (profiles d) = snapshot (heap s1) (profiles d)
       ∧ out s' =
           out s1 ++
           if forallb joinable (snapshot (heap s1) (profiles d))
           then [read_sdc;
                 if json o then print_json items
                 else tabulate items profiles_table;
                 callback None]
           else [read_sdc; throw_TypeError]).
Proof.
  intros s'. subst s'.
  destruct (help o) eqn:Hhelp; simpl.
  { unfold do_profile. by rewrite Hhelp. }
  case_bool_decide as Hargs.
  { unfold do_profile. rewrite Hhelp, bool_decide_eq_true_2 by done. done. }
  rewrite do_profile_runs by (done || lia).
  pose proof (sdc_cached new_SDC s) as Hcached.
  set (d := (sdc new_SDC s).1) in *. set (s1 := (sdc new_SDC s).2) in *.
  pose proof (deepObjCopy_frame (profiles d) (heap s1)) as Hcopy.
  pose proof (deepObjCopy_fresh (profiles d) (heap s1)) as Hfresh.
  pose proof (deepObjCopy_snapshot (profiles d) (heap s1)) as Hsnap.
  set (copy := deepObjCopy (profiles d) (heap s1)) in *.
  pose proof (annotate_frame (profile_name d) copy.1 copy.2) as Hframe.
  pose proof (annotate_snapshot (profile_name d) copy.1 copy.2) as Hann.
  set (done := annotate (profile_name d) copy.1 copy.2) in *.
  assert (Hsub : heap s1 ⊆ done.1).
  { apply map_subseteq_spec. intros l ob Hl. rewrite Hframe.
    - by apply (lookup_weaken _ _ _ _ Hl Hcopy).
    - intros Hin. apply Hfresh in Hin. congruence. }
  assert (Hheap : heap (if done.2
                        then emit_action (callback None)
                               (render o profiles_table copy.1
                                  (with_heap done.1 (emit_action read_sdc s1)))
                        else emit_action throw_TypeError
                               (with_heap done.1 (emit_action read_sdc s1)))
                  = done.1) by by destruct done.2.
  rewrite Hheap.
  split; [by destruct done.2|]. split; [done|]. split.
  { intros p ob _ Hp. by apply (lookup_weaken _ _ _ _ Hp Hsub). }
  intros Hwf. split.
  { unfold snapshot. apply list_fmap_ext. intros i p Hp.
    apply get_obj_subseteq; [done|]. apply Hwf.
    by apply list_elem_of_lookup_2 in Hp. }
  destruct (Hsnap Hwf) as [Hnd Hsame]. specialize (Hann Hnd).
  rewrite Hsame in Hann.
  destruct (forallb joinable (snapshot (heap s1) (profiles d))).
  - destruct Hann as [-> Hitems]. simpl. unfold rendered. simpl.
    rewrite Hitems. rewrite <- !app_assoc. simpl. by destruct (json o).
  - rewrite Hann. simpl. by rewrite <- !app_assoc.
Qed.

End Profile.

(** The two sample profiles, listed as JSON: the copies are annotated and
    printed, the profiles themselves stay as they are. *)
Example do_profile_sample :
  let s' := do_profile two_profiles "profile" as_json [] profiles_state in
  get_obj (heap s') 1 = get_obj profiles_store 1
  ∧ get_obj (heap s') 2 = get_obj profiles_store 2
  ∧ out s' =
      [read_sdc; read_sdc;
       print_json
         [<["dcs" := VStr "all"]>
            (<["curr" := VStr "*"]>
               (<["name" := VStr "env"]> (<["user" := VStr "bob"]> ∅)));
          <["dcs" := VStr "us-west-1,us-sw-1"]>
            (<["curr" := VStr " "]>
               (<["name" := VStr "west"]>
                  (<["dcs" := VArr ["us-west-1"; "us-sw-1"]]> ∅)))];
       callback None].
Proof. repeat split; vm_compute; reflexivity. Qed.

(** ** [do_machines] on any stream *)

Lemma deliver_snoc o evs ev r :
  deliver o (evs ++ [ev]) r = dispatch o (deliver o evs r) ev.
Proof. unfold deliver. by rewrite foldl_app. Qed.

Lemma deliver_app o evs1 evs2 r :
  deliver o (evs1 ++ evs2) r = deliver o evs2 (deliver o evs1 r).
Proof. unfold deliver. by rewrite foldl_app. Qed.

Lemma outcomes_of_snoc evs ev :
  outcomes_of (evs ++ [ev]) =
  outcomes_of evs ++ match ev with Outcome oc => [oc] | End => [] end.
Proof. unfold outcomes_of. rewrite omap_app. by destruct ev. Qed.

Lemma deliver_machines o evs r :
  machines (deliver o evs r) = machines r ++ records (outcomes_of evs).
Proof.
  induction evs as [|ev evs IH] using rev_ind.
  - simpl. by rewrite app_nil_r.
  - rewrite deliver_snoc, outcomes_of_snoc. destruct ev as [oc|]; simpl.
    + rewrite records_snoc, app_assoc, <- IH.
      destruct oc; simpl; [apply on_data_machines | by rewrite app_nil_r].
    + by rewrite app_nil_r.
Qed.

Lemma deliver_errs o evs r :
  errs (deliver o evs r) = errs r ++ failures (outcomes_of evs).
Proof.
  induction evs as [|ev evs IH] using rev_ind.
  - simpl. by rewrite app_nil_r.
  - rewrite deliver_snoc, outcomes_of_snoc. destruct ev as [oc|]; simpl.
    + rewrite failures_snoc, app_assoc, <- IH.
      destruct oc; simpl; [rewrite on_data_errs; by rewrite app_nil_r | done].
    + by rewrite app_nil_r.
Qed.

Lemma deliver_heap o evs r :
  heap (st (deliver o evs r))
  = foldl tag (heap (st r)) (deliveries (outcomes_of evs)).
Proof.
  induction evs as [|ev evs IH] using rev_ind; [done|].
  rewrite deliver_snoc, outcomes_of_snoc. destruct ev as [oc|]; simpl.
  - rewrite deliveries_snoc, foldl_app, <- IH.
    destruct oc; simpl; [apply on_data_heap | done].
  - by rewrite app_nil_r.
Qed.

Lemma deliver_sdc o evs r : _sdc (st (deliver o evs r)) = _sdc (st r).
Proof.
  induction evs as [|ev evs IH] using rev_ind; [done|].
  rewrite deliver_snoc. destruct ev as [[dc ms|dc e]|]; simpl;
    [by rewrite on_data_sdc | done | done].
Qed.

Lemma is_print_rendered o t ls h : is_print (rendered o t ls h) = true.
Proof. unfold rendered. by destruct (json o). Qed.

Lemma is_callback_rendered o t ls h : is_callback (rendered o t ls h) = false.
Proof. unfold rendered. by destruct (json o). Qed.

(** What the handlers add to the trace: two actions per 'end'. *)
Lemma deliver_out o evs r :
  ∃ reports,
    out (st (deliver o evs r)) = out (st r) ++ reports
    ∧ length (filter is_callback reports) = length (filter is_End evs)
    ∧ length (filter is_print reports) = length (filter is_End evs)
    ∧ length reports = 2 * length (filter is_End evs).
Proof.
  induction evs as [|ev evs IH] using rev_ind.
  - exists []. simpl. by rewrite app_nil_r.
  - destruct IH as (reports & Hout & Hcb & Hpr & Hlen).
    rewrite deliver_snoc, filter_app, length_app.
    destruct ev as [[dc ms|dc e]|].
    + exists reports. simpl. rewrite on_data_out.
      repeat split; [done|lia..].
    + exists reports. simpl.
      repeat split; [done|lia..].
    + exists (reports ++ [rendered o machines_table (machines (deliver o evs r))
                            (heap (st (deliver o evs r)));
                          callback (end_error (errs (deliver o evs r)))]).
      simpl. rewrite Hout, <- !app_assoc. simpl.
      rewrite !filter_app, !length_app, !filter_cons, !filter_nil.
      rewrite is_print_rendered, is_callback_rendered. simpl.
      repeat split; lia.
Qed.

Section AnyStream.

Variable new_SDC : option string → store → SDC * store.

Lemma do_machines_runs subcmd o (args : list string) evs s :
  help o = false → length args ≤ 1 →
  do_machines new_SDC subcmd o args evs s
  = deliver o evs (start (sdc new_SDC s).2).
Proof.
  intros Hhelp Hargs. unfold do_machines. rewrite Hhelp.
  rewrite bool_decide_eq_false_2 by lia.
  by destruct (sdc new_SDC s) as [d s1].
Qed.

(** X1.  [do_machines] writes to the objects its stream delivers and to no
    other, and of those it writes the property [dc] only: every other
    property of every object reads as before, and an object that is not
    delivered is the same, or as absent, as before. *)
Theorem do_machines_writes_only_dc subcmd o (args : list string) evs s l k :
  help o = false → length args ≤ 1 →
  let r := do_machines new_SDC subcmd o args evs s in
  let s1 := (sdc new_SDC s).2 in
  (k ≠ "dc" → get_prop (heap (st r)) l k = get_prop (heap s1) l k)
  ∧ (l ∉ delivered evs → heap (st r) !! l = heap s1 !! l).
Proof.
  intros Hhelp Hargs r s1. subst r s1.
  rewrite do_machines_runs by done. rewrite deliver_heap. simpl. split.
  - intros Hk. unfold get_prop. rewrite tagged_obj.
    destruct (last_dc l _); [by rewrite lookup_insert_ne | done].
  - intros Hl. rewrite tagged_lookup.
    destruct (last_dc l _) as [dc|] eqn:E; [|done].
    apply last_dc_Some in E. exfalso. apply Hl.
    apply list_elem_of_fmap. by exists (l, dc).
Qed.

(** X2.  [callback] is called, and the records are printed, once per 'end'
    event of the stream and at no other moment: never when the stream does
    not end, again when it ends again. *)
Theorem callback_once_per_end subcmd o (args : list string) evs s :
  help o = false → length args ≤ 1 →
  let r := do_machines new_SDC subcmd o args evs s in
  let s1 := (sdc new_SDC s).2 in
  ∃ reports,
    out (st r) = out s1 ++ listMachines :: reports
    ∧ length (filter is_callback reports) = length (filter is_End evs)
    ∧ length (filter is_print reports) = length (filter is_End evs)
    ∧ length reports = 2 * length (filter is_End evs).
Proof.
  intros Hhelp Hargs r s1. subst r s1.
  rewrite do_machines_runs by done.
  destruct (deliver_out o evs (start (sdc new_SDC s).2))
    as (reports & Hout & Hcounts).
  exists reports. split; [|done]. rewrite Hout. simpl. by rewrite <- app_assoc.
Qed.

(** X3.  An 'end' reports what came before it and nothing that comes
    after.  It prints one item per record delivered so far, in order, each
    with the properties of its record and the [dc] of a DC that delivered
    it so far, and it gives [callback] the error that stands for the
    failures delivered so far.  Outcomes delivered later are still
    accumulated. *)
Theorem end_reports_what_came_before subcmd o (args : list string)
    before after s :
  help o = false → length args ≤ 1 →
  let s1 := (sdc new_SDC s).2 in
  let r0 := do_machines new_SDC subcmd o args before s in
  let r := do_machines new_SDC subcmd o args (before ++ End :: after) s in
  (∃ items err later,
     out (st r) =
       out (st r0)
       ++ [if json o then print_json items else tabulate items machines_table;
           callback err]
       ++ later
     ∧ shows_records items (records (outcomes_of before)) (heap s1)
         (deliveries (outcomes_of before))
     ∧ surfaces err (failures (outcomes_of before))
     ∧ length (filter is_callback later) = length (filter is_End after))
  ∧ machines r = records (outcomes_of before) ++ records (outcomes_of after)
  ∧ errs r = failures (outcomes_of before) ++ failures (outcomes_of after).
Proof.
  intros Hhelp Hargs s1 r0 r. subst s1 r0 r.
  rewrite !do_machines_runs by done.
  set (r0 := start (sdc new_SDC s).2).
  change (before ++ End :: after) with (before ++ [End] ++ after).
  rewrite !deliver_app.
  destruct (deliver_out o after (deliver o [End] (deliver o before r0)))
    as (later & Hout & Hcb & _).
  split; [|split].
  - exists (snapshot (foldl tag (heap (sdc new_SDC s).2)
                        (deliveries (outcomes_of before)))
              (records (outcomes_of before))),
      (end_error (failures (outcomes_of before))), later.
    split; [|split; [apply shows_delivered_records|
             split; [apply end_error_surfaces|done]]].
    rewrite Hout. simpl.
    rewrite deliver_machines, deliver_errs, deliver_heap. simpl.
    rewrite <- !app_assoc. simpl. unfold rendered. by destruct (json o).
  - rewrite deliver_machines. simpl. by rewrite deliver_machines.
  - rewrite deliver_errs. simpl. by rewrite deliver_errs.
Qed.

(** X4.  A 'data' event with no record leaves no trace: the run is the
    same as if the DC had delivered nothing at all. *)
Theorem empty_batch_invisible subcmd o (args : list string) evs1 dc evs2 s :
  do_machines new_SDC subcmd o args (evs1 ++ Outcome (Data dc []) :: evs2) s
  = do_machines new_SDC subcmd o args (evs1 ++ evs2) s.
Proof.
  unfold do_machines. destruct (help o); [done|].
  case_bool_decide; [done|].
  destruct (sdc new_SDC s) as [d s1].
  change (evs1 ++ Outcome (Data dc []) :: evs2)
    with (evs1 ++ [Outcome (Data dc [])] ++ evs2).
  by rewrite !deliver_app.
Qed.

End AnyStream.

Lemma do_machines_writes_only_dc_witness :
  let r := do_machines no_config "machines" plain []
             (completed partial_failure) sample_state in
  get_prop (heap (st r)) 1 "id" = Some (VStr "e91897cf")
  ∧ heap (st r) !! 8 = sample_store !! 8.
Proof.
  destruct (do_machines_writes_only_dc no_config "machines" plain []
              (completed partial_failure) sample_state 1 "id") as [Hid _];
    [reflexivity | simpl; lia |].
  destruct (do_machines_writes_only_dc no_config "machines" plain []
              (completed partial_failure) sample_state 8 "dc") as [_ Hobj];
    [reflexivity | simpl; lia |].
  split.
  - rewrite Hid by done. reflexivity.
  - apply Hobj. vm_compute. intros Hin.
    apply elem_of_cons in Hin as [[=]|Hin].
    apply elem_of_cons in Hin as [[=]|Hin].
    apply elem_of_cons in Hin as [[=]|Hin].
    by apply elem_of_nil in Hin.
Defined.

Lemma callback_once_per_end_witness :
  ∃ reports,
    out (st (do_machines no_config "machines" plain []
               (completed all_failing ++ completed all_delivering) sample_state))
    = [read_sdc; listMachines] ++ reports
    ∧ length (filter is_callback reports) = 2.
Proof.
  destruct (callback_once_per_end no_config "machines" plain []
              (completed all_failing ++ completed all_delivering) sample_state)
    as (reports & Hout & Hcb & _).
  - reflexivity.
  - simpl. lia.
  - exists reports. split; [exact Hout | exact Hcb].
Defined.

Lemma end_reports_what_came_before_witness :
  let r := do_machines no_config "machines" plain []
             (completed partial_failure ++ [Outcome (DcError "us-sw-1" 8)])
             sample_state in
  errs r = [7; 8]
  ∧ ∃ items later,
      out (st r) =
        [read_sdc; listMachines; tabulate items machines_table;
         callback (Some (ErrObj 7))] ++ later
      ∧ length items = 2
      ∧ ∃ item, items !! 0 = Some item
                ∧ item !! "id" = Some (VStr "e91897cf").
Proof.
  destruct (end_reports_what_came_before no_config "machines" plain []
              (Outcome <$> partial_failure) [Outcome (DcError "us-sw-1" 8)]
              sample_state)
    as ((items & err & later & Hout & (Hlen & Hitems) & (_ & Hone & _) & _)
        & _ & He).
  - reflexivity.
  - simpl. lia.
  - split; [exact He|]. exists items, later.
    rewrite (Hone 7 eq_refl) in Hout. split; [exact Hout|].
    split; [exact Hlen|].
    destruct (Hitems 0 1 eq_refl) as (item & dc & Hitem & _ & _ & Hk).
    exists item. split; [exact Hitem|]. by rewrite (Hk "id").
Defined.

(** ** The guards of the commands *)

Section Guards.

Variable new_SDC : option string → store → SDC * store.

(** X5.  The commands count their positional arguments and never read
    them: with one argument each of them does exactly what it does with
    none. *)
Theorem single_argument_ignored subcmd o (args : list string) evs s :
  length args ≤ 1 →
  do_machines new_SDC subcmd o args evs s = do_machines new_SDC subcmd o [] evs s
  ∧ do_profile new_SDC subcmd o args s = do_profile new_SDC subcmd o [] s
  ∧ do_dcs new_SDC subcmd o args s = do_dcs new_SDC subcmd o [] s.
Proof.
  intros Hargs. unfold do_machines, do_profile, do_dcs.
  rewrite (bool_decide_eq_false_2 (1 < length args)) by lia.
  rewrite (bool_decide_eq_false_2 (1 < length (@nil string))) by (simpl; lia).
  done.
Qed.

(** X6.  The help option comes first in all three commands: whatever the
    arguments, the stream and the state, the command hands over to
    [do_help] with its own name, calls [callback] itself not at all, does
    not evaluate [this.sdc] and writes to no object. *)
Theorem help_comes_first subcmd o (args : list string) evs s :
  help o = true →
  let helped := emit_action (do_help [subcmd]) s in
  do_machines new_SDC subcmd o args evs s
    = {| machines := []; errs := []; st := helped |}
  ∧ do_profile new_SDC subcmd o args s = helped
  ∧ do_dcs new_SDC subcmd o args s = helped
  ∧ out helped = out s ++ [do_help [subcmd]]
  ∧ _sdc helped = _sdc s ∧ heap helped = heap s.
Proof.
  intros Hhelp helped. subst helped.
  unfold do_machines, do_profile, do_dcs. by rewrite Hhelp.
Qed.

(** X7.  Past its guards, [do_dcs] shows one entry per datacenter of the
    configuration, in the order of the keys, each with exactly the two
    properties [name] and [url] as configured, and then calls [callback]
    without an error, also when no datacenter is configured; it writes to
    no object. *)
Theorem do_dcs_lists_config subcmd o (args : list string) s :
  help o = false → length args ≤ 1 →
  let d := (sdc new_SDC s).1 in
  let s1 := (sdc new_SDC s).2 in
  let s' := do_dcs new_SDC subcmd o args s in
  ∃ items,
    out s' = out s1 ++ [if json o then print_json items
                        else tabulate items dcs_table;
                        callback None]
    ∧ heap s' = heap s1 ∧ _sdc s' = Some d
    ∧ length items = length (config_dcs d)
    ∧ ∀ i n u, config_dcs d !! i = Some (n, u) →
        ∃ ob, items !! i = Some ob
              ∧ ob !! "name" = Some (VStr n) ∧ ob !! "url" = Some (VStr u)
              ∧ ∀ k, k ≠ "name" → k ≠ "url" → ob !! k = None.
Proof.
  intros Hhelp Hargs d s1 s'. subst d s1 s'.
  unfold do_dcs. rewrite Hhelp, bool_decide_eq_false_2 by lia.
  pose proof (sdc_cached new_SDC s) as Hcached.
  destruct (sdc new_SDC s) as [d s1]. simpl in *.
  exists (dc_entry <$> config_dcs d). split; [|split; [|split; [|split]]].
  - destruct (json o); simpl; by rewrite <- app_assoc.
  - by destruct (json o).
  - by destruct (json o).
  - by rewrite length_fmap.
  - intros i n u Hi. exists (dc_entry (n, u)).
    rewrite list_lookup_fmap, Hi. split; [done|]. unfold dc_entry. simpl.
    split; [apply lookup_insert_eq|]. split.
    + rewrite lookup_insert_ne by done. apply lookup_insert_eq.
    + intros k Hn Hu. by rewrite !lookup_insert_ne.
Qed.

End Guards.

Lemma single_argument_ignored_witness :
  do_dcs two_profiles "dcs" as_json ["us-west-1"] profiles_state
  = do_dcs two_profiles "dcs" as_json [] profiles_state.
Proof.
  destruct (single_argument_ignored two_profiles "dcs" as_json ["us-west-1"] []
              profiles_state) as (_ & _ & Hdcs).
  - simpl. lia.
  - exact Hdcs.
Defined.

Lemma help_comes_first_witness :
  out (st (do_machines no_config "machines" with_help ["a"; "b"; "c"]
             (completed all_failing) sample_state))
  = [do_help ["machines"]].
Proof.
  destruct (help_comes_first no_config "machines" with_help ["a"; "b"; "c"]
              (completed all_failing) sample_state) as (Hm & _).
  - reflexivity.
  - rewrite Hm. reflexivity.
Defined.

Lemma do_dcs_lists_config_witness :
  ∃ ob, out (do_dcs two_profiles "dcs" as_json [] profiles_state)
        = [read_sdc; print_json [ob]; callback None]
        ∧ ob !! "name" = Some (VStr "us-west-1").
Proof.
  destruct (do_dcs_lists_config two_profiles "dcs" as_json [] profiles_state)
    as (items & Hout & _ & _ & Hlen & Hitems).
  - reflexivity.
  - simpl. lia.
  - destruct (Hitems 0 "us-west-1" "https://us-west-1.api.joyentcloud.com")
      as (ob & Hob & Hname & _); [reflexivity|].
    exists ob. split; [|exact Hname]. rewrite Hout. simpl in *.
    destruct items as [|ob' [|? ?]]; simpl in Hlen; try discriminate Hlen.
    simpl in Hob. by injection Hob as ->.
Defined.

(** ** One [SDC] per CLI object *)

Section OneSDC.

Variable new_SDC : option string → store → SDC * store.

Lemma sdc_given (new' : option string → store → SDC * store) s d :
  _sdc s = Some d → sdc new' s = sdc new_SDC s.
Proof. intros E. by rewrite !(sdc_again _ s d). Qed.

Lemma do_profile_sdc subcmd o (args : list string) s :
  help o = false → length args ≤ 1 →
  _sdc (do_profile new_SDC subcmd o args s) = Some (sdc new_SDC s).1.
Proof.
  intros Hhelp Hargs. rewrite do_profile_runs by done.
  pose proof (sdc_cached new_SDC s). by destruct (annotate _ _ _).2.
Qed.

Lemma do_dcs_sdc subcmd o (args : list string) s :
  help o = false → length args ≤ 1 →
  _sdc (do_dcs new_SDC subcmd o args s) = Some (sdc new_SDC s).1.
Proof.
  intros Hhelp Hargs. unfold do_dcs.
  rewrite Hhelp, bool_decide_eq_false_2 by lia.
  pose proof (sdc_cached new_SDC s).
  destruct (sdc new_SDC s) as [d s1]. by destruct (json o).
Qed.

Lemma do_machines_sdc subcmd o (args : list string) evs s :
  help o = false → length args ≤ 1 →
  _sdc (st (do_machines new_SDC subcmd o args evs s)) = Some (sdc new_SDC s).1.
Proof.
  intros Hhelp Hargs. rewrite do_machines_runs by done.
  rewrite deliver_sdc. simpl. apply sdc_cached.
Qed.

Lemma commands_given (new' : option string → store → SDC * store)
    subcmd o (args : list string) evs s d :
  _sdc s = Some d →
  do_machines new' subcmd o args evs s = do_machines new_SDC subcmd o args evs s
  ∧ do_profile new' subcmd o args s = do_profile new_SDC subcmd o args s
  ∧ do_dcs new' subcmd o args s = do_dcs new_SDC subcmd o args s.
Proof.
  intros E. unfold do_machines, do_profile, do_dcs.
  rewrite !(sdc_again _ s d) by done.
  destruct (deepObjCopy (profiles d) (heap (emit_action read_sdc s)))
    as [profs h1].
  by rewrite !(sdc_again _ (with_heap h1 (emit_action read_sdc s)) d).
Qed.

(** X8.  The [SDC] object is created once.  Whichever command first gets
    past its guards creates it and keeps it in [this._sdc]; whatever
    command runs afterwards finds it there and runs without creating
    another. *)
Theorem sdc_created_once subcmd o (args : list string) evs s :
  help o = false → length args ≤ 1 →
  Forall (λ s',
    _sdc s' = Some (sdc new_SDC s).1
    ∧ ∀ (new' : option string → store → SDC * store) subcmd' o'
        (args' : list string) evs',
        do_machines new' subcmd' o' args' evs' s'
          = do_machines new_SDC subcmd' o' args' evs' s'
        ∧ do_profile new' subcmd' o' args' s' = do_profile new_SDC subcmd' o' args' s'
        ∧ do_dcs new' subcmd' o' args' s' = do_dcs new_SDC subcmd' o' args' s')
    [st (do_machines new_SDC subcmd o args evs s);
     do_profile new_SDC subcmd o args s;
     do_dcs new_SDC subcmd o args s].
Proof.
  intros Hhelp Hargs.
  pose proof (do_machines_sdc subcmd o args evs s Hhelp Hargs) as Hm.
  pose proof (do_profile_sdc subcmd o args s Hhelp Hargs) as Hp.
  pose proof (do_dcs_sdc subcmd o args s Hhelp Hargs) as Hd.
  repeat constructor; try done; intros; by eapply commands_given.
Qed.

End OneSDC.

Lemma sdc_created_once_witness :
  do_dcs no_config "dcs" plain []
    (do_profile two_profiles "profile" plain [] profiles_state)
  = do_dcs two_profiles "dcs" plain []
      (do_profile two_profiles "profile" plain [] profiles_state).
Proof.
  pose proof (sdc_created_once two_profiles "profile" plain [] [] profiles_state)
    as H.
  apply Forall_cons in H as [_ H]; [|reflexivity|simpl; lia].
  apply Forall_cons in H as [[_ H] _].
  destruct (H no_config "dcs" plain [] []) as (_ & _ & Hdcs). exact Hdcs.
Defined.

(** ** What [do_profile] shows *)

Section ProfileReport.

Variable new_SDC : option string → store → SDC * store.

Lemma sdc_out s : out (sdc new_SDC s).2 = out s ++ [read_sdc].
Proof.
  unfold sdc. destruct (_sdc s); [done|].
  by destruct (new_SDC (opts_profile s) (heap s)).
Qed.

(** [do_profile] past its guards, on profiles that exist. *)
Lemma do_profile_report subcmd o (args : list string) s :
  help o = false → length args ≤ 1 →
  let d := (sdc new_SDC s).1 in
  let s1 := (sdc new_SDC s).2 in
  let s' := do_profile new_SDC subcmd o args s in
  (∀ p, p ∈ profiles d → is_Some (heap s1 !! p)) →
  _sdc s' = Some d
  ∧ heap s1 ⊆ heap s'
  ∧ out s' = out s1 ++ read_sdc
               :: profile_report o (profile_name d) (snapshot (heap s1) (profiles d)).
Proof.
  intros Hhelp Hargs d s1 s' Hwf. subst s'.
  split; [by apply do_profile_sdc|].
  rewrite do_profile_runs by done. fold d s1.
  pose proof (deepObjCopy_frame (profiles d) (heap s1)) as Hcopy.
  pose proof (deepObjCopy_fresh (profiles d) (heap s1)) as Hfresh.
  destruct (deepObjCopy_snapshot (profiles d) (heap s1) Hwf) as [Hnd Hsame].
  set (copy := deepObjCopy (profiles d) (heap s1)) in *.
  pose proof (annotate_frame (profile_name d) copy.1 copy.2) as Hframe.
  pose proof (annotate_snapshot (profile_name d) copy.1 copy.2 Hnd) as Hann.
  rewrite Hsame in Hann. unfold profile_report.
  set (done := annotate (profile_name d) copy.1 copy.2) in *.
  assert (Hsub : heap s1 ⊆ done.1).
  { apply map_subseteq_spec. intros l ob Hl. rewrite Hframe.
    - by apply (lookup_weaken _ _ _ _ Hl Hcopy).
    - intros Hin. apply Hfresh in Hin. congruence. }
  destruct (forallb joinable (snapshot (heap s1) (profiles d))).
  - destruct Hann as [-> Hitems]. split; [done|]. simpl. unfold rendered. simpl.
    rewrite Hitems, <- !app_assoc. simpl. by destruct (json o).
  - rewrite Hann. split; [done|]. simpl. by rewrite <- !app_assoc.
Qed.

(** What [do_profile] adds to the trace is decided by the profiles as they
    are stored when it starts. *)
Lemma do_profile_from subcmd o (args : list string) s d :
  help o = false → length args ≤ 1 →
  _sdc s = Some d → (∀ p, p ∈ profiles d → is_Some (heap s !! p)) →
  out (do_profile new_SDC subcmd o args s)
  = out s ++ [read_sdc; read_sdc]
      ++ profile_report o (profile_name d) (snapshot (heap s) (profiles d)).
Proof.
  intros Hhelp Hargs Hsdc Hwf.
  destruct (do_profile_report subcmd o args s Hhelp Hargs) as (_ & _ & Hout).
  { by rewrite (sdc_again _ s d). }
  rewrite Hout, (sdc_again _ s d) by done. simpl. by rewrite <- app_assoc.
Qed.

(** X9.  [do_profile] can be repeated: run a second time, in the state the
    first run left, it adds to the trace exactly what the first run added
    (the same annotated list, or the same [TypeError]), and the stored
    profiles still read as before the first run. *)
Theorem do_profile_repeatable subcmd o (args : list string) s :
  help o = false → length args ≤ 1 →
  let d := (sdc new_SDC s).1 in
  let s1 := (sdc new_SDC s).2 in
  (∀ p, p ∈ profiles d → is_Some (heap s1 !! p)) →
  let s' := do_profile new_SDC subcmd o args s in
  let s'' := do_profile new_SDC subcmd o args s' in
  ∃ report,
    out s' = out s ++ [read_sdc; read_sdc] ++ report
    ∧ out s'' = out s' ++ [read_sdc; read_sdc] ++ report
    ∧ snapshot (heap s'') (profiles d) = snapshot (heap s1) (profiles d).
Proof.
  intros Hhelp Hargs d s1 Hwf s' s''.
  destruct (do_profile_report subcmd o args s Hhelp Hargs Hwf)
    as (Hsdc & Hsub & Hout). fold d s1 s' in Hsdc, Hsub, Hout.
  assert (Hwf' : ∀ p, p ∈ profiles d → is_Some (heap s' !! p)).
  { intros p Hp. destruct (Hwf p Hp) as [ob Hob]. exists ob.
    by apply (lookup_weaken _ _ _ _ Hob Hsub). }
  assert (Hsnap : snapshot (heap s') (profiles d) = snapshot (heap s1) (profiles d)).
  { unfold snapshot. apply list_fmap_ext. intros i p Hp.
    apply get_obj_subseteq; [done|]. apply Hwf.
    by apply list_elem_of_lookup_2 in Hp. }
  exists (profile_report o (profile_name d) (snapshot (heap s1) (profiles d))).
  split; [|split].
  - rewrite Hout. unfold s1. rewrite sdc_out. by rewrite <- app_assoc.
  - unfold s''. rewrite (do_profile_from subcmd o args s' d) by done.
    by rewrite Hsnap.
  - destruct (do_profile_report subcmd o args s' Hhelp Hargs) as (_ & Hsub' & _).
    { by rewrite (sdc_again _ s' d). }
    rewrite (sdc_again _ s' d) in Hsub' by done. simpl in Hsub'.
    fold s'' in Hsub'. rewrite <- Hsnap.
    unfold snapshot. apply list_fmap_ext. intros i p Hp.
    apply get_obj_subseteq; [done|]. apply Hwf'.
    by apply list_elem_of_lookup_2 in Hp.
Qed.

(** X10.  Listing the machines first does not change what [do_profile]
    shows, as long as the stream delivers no profile object: run after
    [do_machines], [do_profile] adds to the trace what it adds when it is
    run instead of it. *)
Theorem do_profile_after_do_machines subcmd o (args : list string) evs
    subcmd' o' (args' : list string) s :
  help o = false → length args ≤ 1 → help o' = false → length args' ≤ 1 →
  let d := (sdc new_SDC s).1 in
  let s1 := (sdc new_SDC s).2 in
  (∀ p, p ∈ profiles d → is_Some (heap s1 !! p) ∧ p ∉ delivered evs) →
  let sm := st (do_machines new_SDC subcmd o args evs s) in
  ∃ report,
    out (do_profile new_SDC subcmd' o' args' s)
      = out s ++ [read_sdc; read_sdc] ++ report
    ∧ out (do_profile new_SDC subcmd' o' args' sm)
      = out sm ++ [read_sdc; read_sdc] ++ report.
Proof.
  intros Hhelp Hargs Hhelp' Hargs' d s1 Hwf sm.
  exists (profile_report o' (profile_name d) (snapshot (heap s1) (profiles d))).
  split.
  - destruct (do_profile_report subcmd' o' args' s Hhelp' Hargs')
      as (_ & _ & Hout); [intros p Hp; by apply Hwf|].
    fold d s1 in Hout. rewrite Hout. unfold s1. rewrite sdc_out.
    by rewrite <- app_assoc.
  - assert (Hsame : ∀ p, p ∈ profiles d → heap sm !! p = heap s1 !! p).
    { intros p Hp. unfold sm. rewrite do_machines_runs by done.
      rewrite deliver_heap. simpl. rewrite tagged_lookup.
      destruct (last_dc p _) as [dc|] eqn:E; [|done].
      apply last_dc_Some in E. exfalso. apply (Hwf p Hp).
      apply list_elem_of_fmap. by exists (p, dc). }
    rewrite (do_profile_from subcmd' o' args' sm d); [|done|done| |].
    + assert (Hsnap : snapshot (heap sm) (profiles d)
                      = snapshot (heap s1) (profiles d)); [|by rewrite Hsnap].
      unfold snapshot. apply list_fmap_ext. intros i p Hp.
      apply list_elem_of_lookup_2 in Hp. unfold get_obj. by rewrite Hsame.
    + by apply do_machines_sdc.
    + intros p Hp. rewrite Hsame by done. by apply Hwf.
Qed.

(** X13.  The list [do_profile] shows, field by field: one item per stored
    profile, in order; [curr] is ['*'] for a profile named as the current
    one and a blank otherwise; [dcs] is the stored array joined with commas
    (the empty string for an empty array) and ['all'] when the profile has
    no [dcs] or a falsy one; every other field is shown as stored. *)
Theorem do_profile_fields subcmd o (args : list string) s :
  help o = false → length args ≤ 1 →
  let d := (sdc new_SDC s).1 in
  let s1 := (sdc new_SDC s).2 in
  (∀ p, p ∈ profiles d → is_Some (heap s1 !! p)) →
  forallb joinable (snapshot (heap s1) (profiles d)) = true →
  ∃ items,
    out (do_profile new_SDC subcmd o args s)
      = out s1 ++ [read_sdc;
                   if json o then print_json items
                   else tabulate items profiles_table;
                   callback None]
    ∧ length items = length (profiles d)
    ∧ ∀ i p, profiles d !! i = Some p →
        ∃ item, items !! i = Some item
          ∧ item !! "curr"
            = Some (VStr (if bool_decide (get_prop (heap s1) p "name"
                                          = Some (VStr (profile_name d)))
                          then "*" else " "))
          ∧ item !! "dcs"
            = Some (VStr match get_prop (heap s1) p "dcs" with
                         | Some (VArr l) => join "," l
                         | _ => "all"
                         end)
          ∧ (get_prop (heap s1) p "dcs" = Some (VArr []) →
             item !! "dcs" = Some (VStr ""))
          ∧ ∀ k, k ≠ "curr" → k ≠ "dcs" → item !! k = get_prop (heap s1) p k.
Proof.
  intros Hhelp Hargs d s1 Hwf Hjoin.
  destruct (do_profile_report subcmd o args s Hhelp Hargs Hwf) as (_ & _ & Hout).
  fold d s1 in Hout. unfold profile_report in Hout. rewrite Hjoin in Hout.
  exists (annotated (profile_name d) <$> snapshot (heap s1) (profiles d)).
  split; [done|]. split; [unfold snapshot; by rewrite !length_fmap|].
  intros i p Hp. exists (annotated (profile_name d) (get_obj (heap s1) p)).
  unfold snapshot. rewrite !list_lookup_fmap, Hp. split; [done|].
  unfold annotated, get_prop.
  split; [by rewrite lookup_insert_ne, lookup_insert_eq|].
  split; [by rewrite lookup_insert_eq|]. split.
  - intros ->. by rewrite lookup_insert_eq.
  - intros k Hc Hd. by rewrite !lookup_insert_ne.
Qed.

End ProfileReport.

Lemma do_profile_repeatable_witness :
  let s' := do_profile two_profiles "profile" as_json [] profiles_state in
  let s'' := do_profile two_profiles "profile" as_json [] s' in
  ∃ report, out s' = [read_sdc; read_sdc] ++ report
            ∧ out s'' = out s' ++ [read_sdc; read_sdc] ++ report.
Proof.
  destruct (do_profile_repeatable two_profiles "profile" as_json []
              profiles_state) as (report & H1 & H2 & _).
  - reflexivity.
  - simpl. lia.
  - intros p Hp. simpl in Hp.
    apply elem_of_cons in Hp as [->|Hp]; [by eexists|].
    apply elem_of_cons in Hp as [->|Hp]; [by eexists|].
    by apply elem_of_nil in Hp.
  - exists report. split; [exact H1 | exact H2].
Defined.

Lemma do_profile_after_do_machines_witness :
  let sm := st (do_machines two_profiles "machines" plain []
                  (completed [Data "us-west-1" [5]]) profiles_state) in
  ∃ report,
    out (do_profile two_profiles "profile" as_json [] profiles_state)
      = [read_sdc; read_sdc] ++ report
    ∧ out (do_profile two_profiles "profile" as_json [] sm)
      = out sm ++ [read_sdc; read_sdc] ++ report.
Proof.
  destruct (do_profile_after_do_machines two_profiles "machines" plain []
              (completed [Data "us-west-1" [5]]) "profile" as_json []
              profiles_state) as (report & H1 & H2).
  - reflexivity.
  - simpl. lia.
  - reflexivity.
  - simpl. lia.
  - assert (Hno : ∀ p, p ≠ 5 → p ∉ delivered (completed [Data "us-west-1" [5]])).
    { intros p Hne Hin. vm_compute in Hin.
      apply elem_of_cons in Hin as [->|Hin]; [done|].
      by apply elem_of_nil in Hin. }
    intros p Hp. simpl in Hp.
    apply elem_of_cons in Hp as [->|Hp]; [split; [by eexists | by apply Hno]|].
    apply elem_of_cons in Hp as [->|Hp]; [split; [by eexists | by apply Hno]|].
    by apply elem_of_nil in Hp.
  - exists report. split; [exact H1 | exact H2].
Defined.

Lemma do_profile_fields_witness :
  ∃ items,
    out (do_profile two_profiles "profile" plain [] profiles_state)
      = [read_sdc; read_sdc; tabulate items profiles_table; callback None]
    ∧ length items = 2.
Proof.
  destruct (do_profile_fields two_profiles "profile" plain [] profiles_state)
    as (items & Hout & Hlen & _).
  - reflexivity.
  - simpl. lia.
  - intros p Hp. simpl in Hp.
    apply elem_of_cons in Hp as [->|Hp]; [by eexists|].
    apply elem_of_cons in Hp as [->|Hp]; [by eexists|].
    by apply elem_of_nil in Hp.
  - reflexivity.
  - exists items. split; [exact Hout | exact Hlen].
Defined.

(** ** The two ways of showing a list *)

Lemma as_listed_rendered o t ls h :
  as_listed (rendered o t ls h) = print_json (snapshot h ls).
Proof. unfold rendered. by destruct (json o). Qed.

Lemma deliver_listed o o' evs r :
  as_listed <$> out (st (deliver o evs r))
  = as_listed <$> out (st (deliver o' evs r)).
Proof.
  induction evs as [|ev evs IH] using rev_ind; [done|].
  rewrite !deliver_snoc. destruct ev as [[dc ms|dc e]|]; simpl.
  - by rewrite !on_data_out.
  - done.
  - rewrite !fmap_app, IH. simpl. rewrite !as_listed_rendered.
    by rewrite !deliver_machines, !deliver_errs, !deliver_heap.
Qed.

Section Json.

Variable new_SDC : option string → store → SDC * store.

(** X12.  The option [json] changes how a list is shown and nothing else:
    with and without it, each command accumulates the same records and
    errors, leaves the same store and the same [SDC], and performs the same
    actions on the same items, the way the items are printed apart. *)
Theorem json_changes_form_only subcmd o o' (args : list string) evs s :
  help o = help o' →
  let r := do_machines new_SDC subcmd o args evs s in
  let r' := do_machines new_SDC subcmd o' args evs s in
  let p := do_profile new_SDC subcmd o args s in
  let p' := do_profile new_SDC subcmd o' args s in
  let c := do_dcs new_SDC subcmd o args s in
  let c' := do_dcs new_SDC subcmd o' args s in
  (machines r = machines r' ∧ errs r = errs r'
   ∧ heap (st r) = heap (st r') ∧ _sdc (st r) = _sdc (st r')
   ∧ as_listed <$> out (st r) = as_listed <$> out (st r'))
  ∧ (heap p = heap p' ∧ _sdc p = _sdc p'
     ∧ as_listed <$> out p = as_listed <$> out p')
  ∧ (heap c = heap c' ∧ _sdc c = _sdc c'
     ∧ as_listed <$> out c = as_listed <$> out c').
Proof.
  intros Hhelp r r' p p' c c'. subst r r' p p' c c'.
  unfold do_machines, do_profile, do_dcs. rewrite <- Hhelp.
  destruct (help o); [done|]. case_bool_decide; [done|].
  destruct (sdc new_SDC s) as [d s1]. split; [|split].
  - rewrite !deliver_machines, !deliver_errs, !deliver_heap, !deliver_sdc.
    repeat split; try done. apply deliver_listed.
  - destruct (deepObjCopy (profiles d) (heap s1)) as [profs h1].
    destruct (sdc new_SDC (with_heap h1 s1)) as [d2 s2].
    destruct (annotate (profile_name d2) profs (heap s2)) as [h2 [|]];
      [|done].
    simpl. rewrite !fmap_app. simpl. by rewrite !as_listed_rendered.
  - simpl. by destruct (json o), (json o'); simpl; rewrite !fmap_app.
Qed.

End Json.

Lemma json_changes_form_only_witness :
  as_listed <$> out (st (do_machines no_config "machines" plain []
                           (completed partial_failure) sample_state))
  = as_listed <$> out (st (do_machines no_config "machines" as_json []
                             (completed partial_failure) sample_state)).
Proof.
  destruct (json_changes_form_only no_config "machines" plain as_json []
              (completed partial_failure) sample_state)
    as ((_ & _ & _ & _ & Hout) & _).
  - reflexivity.
  - exact Hout.
Defined.

(** ** From [init] to the first command *)

Section Init.

Variable new_SDC : option string → store → SDC * store.

(** X11.  [init] with [opts.version] prints the name and the version,
    calls [callback(false)] and stops there: the logger and the environment
    stay as they are even with [opts.verbose], and [Cmdln]'s [init] is not
    run.  Otherwise it hands over to [Cmdln]'s [init], having switched the
    logger to [trace] exactly when [opts.verbose] is set, and without
    creating the [SDC]: that is done by the first command that gets past
    its guards, with the profile [init] was given; a command that stops at
    a guard creates none. *)
Theorem init_lazy_sdc name ver opts pr h :
  match init name ver opts pr h with
  | (pr', acts, None) =>
      version opts = true ∧ pr' = pr
      ∧ acts = [p_version name ver; callback_false]
  | (pr', acts, Some s0) =>
      version opts = false ∧ acts = [Cmdln_init]
      ∧ pr' = (if verbose opts
               then {| DEBUG := Some "1"; log_level := "trace"; log_src := true |}
               else pr)
      ∧ _sdc s0 = None ∧ heap s0 = h ∧ out s0 = []
      ∧ ∀ subcmd o (args : list string) evs,
          let created := Some (new_SDC (profile opts) h).1 in
          let ran := bool_decide (help o = false ∧ length args ≤ 1) in
          _sdc (st (do_machines new_SDC subcmd o args evs s0))
            = (if ran then created else None)
          ∧ _sdc (do_profile new_SDC subcmd o args s0)
            = (if ran then created else None)
          ∧ _sdc (do_dcs new_SDC subcmd o args s0)
            = (if ran then created else None)
  end.
Proof.
  unfold init. destruct (version opts); [done|].
  repeat split; try done.
  all: case_bool_decide as Hran.
  all: try (destruct Hran as [Hhelp Hargs];
            first [ rewrite do_machines_sdc by done
                  | rewrite do_profile_sdc by done
                  | rewrite do_dcs_sdc by done ];
            unfold sdc; simpl;
            by destruct (new_SDC (profile opts) h)).
  all: unfold do_machines, do_profile, do_dcs;
    destruct (help o) eqn:Hhelp; [done|];
    case_bool_decide as Hargs; [done|];
    exfalso; apply Hran; split; [done|lia].
Qed.

End Init.

Example init_version_with_verbose :
  init "sdc" "1.0.0" {| version := true; verbose := true; profile := None |}
    initial_process ∅
  = (initial_process, [p_version "sdc" "1.0.0"; callback_false], None).
Proof. reflexivity. Qed.
